(** * CollegeBazaar: the particle field of [ParticleGrid.jsx]

    A shallow embedding of the background animation
    (src/frontend/src/components/ParticleGrid.jsx): the particle pool
    built by [init], the per-frame update and rendering done by [draw],
    the resize handler and the effect's cleanup function, together with
    the part of the browser they talk to (the animation-frame callback
    list, the resize listener and the 2D context).

    JavaScript numbers are modelled as real numbers: every arithmetic
    operation of the source is the exact operation on [R], so rounding
    of IEEE doubles is abstracted away.  [Math.random] is an oracle
    giving the n-th value it returns.  The simulation step is given a
    second time on binary64 numbers ([Double]), to replay concrete
    runs with the arithmetic the browser uses.

    Two more pieces of the front end are embedded: the count-up
    animation of the statistics ([Counter]: [useCounter] of the home
    page and [AnimatedNum] of the impact page) and the message threads
    of the chat page ([Chat]). *)

From Stdlib Require Import Reals Lra Lia ZArith List Bool Arith.
From Stdlib Require Floats.
From Stdlib Require String.
Import ListNotations.
Open Scope R_scope.

(** ** The [Math] object *)

Module Math.

Definition floor (v : R) : Z := Int_part v.

Definition hypot (a b : R) : R := sqrt (a * a + b * b).

Definition sin (v : R) : R := Rtrigo_def.sin v.

Definition PI : R := Rtrigo1.PI.

End Math.

(** ** Data *)

(** The two values of a particle's [type] field. *)
Inductive ptype : Set := cyan | acid.

(** The object literal pushed by [init]. *)
Record particle : Type := mkParticle {
  x : R;
  y : R;
  r : R;
  vx : R;
  vy : R;
  life : R;
  type : ptype
}.

(** Field assignments [p.f = v]. *)
Definition set_x (p : particle) (v : R) : particle :=
  mkParticle v (y p) (r p) (vx p) (vy p) (life p) (type p).
Definition set_y (p : particle) (v : R) : particle :=
  mkParticle (x p) v (r p) (vx p) (vy p) (life p) (type p).
Definition set_life (p : particle) (v : R) : particle :=
  mkParticle (x p) (y p) (r p) (vx p) (vy p) v (type p).

(** The backing size of the canvas element. *)
Record canvas : Type := mkCanvas {
  width : R;
  height : R
}.

(** The CSS colour strings [rgba(R,G,B,A)] built by the template
    literals, kept structured. *)
Inductive color : Type :=
| rgba (red green blue : Z) (a : R).

Definition alpha_of (c : color) : R :=
  match c with rgba _ _ _ a => a end.

(** Calls and property writes on the 2D context, in the order issued. *)
Inductive op : Type :=
| clearRect (x0 y0 w h : R)
| beginPath
| arc (cx cy radius a0 a1 : R)
| fillStyle (c : color)
| fill
| moveTo (px py : R)
| lineTo (px py : R)
| strokeStyle (c : color)
| lineWidth (w : R)
| stroke.

(** ** The simulation step (body of [particles.forEach], lines 37-43) *)

Definition update (c : canvas) (p : particle) : particle :=
  let p := set_life p (life p + 0.004) in
  let p := set_x p (x p + vx p) in
  let p := set_y p (y p + vy p) in
  let p := if Rlt_dec (x p) 0 then set_x p (width c) else p in
  let p := if Rgt_dec (x p) (width c) then set_x p 0 else p in
  let p := if Rlt_dec (y p) 0 then set_y p (height c) else p in
  let p := if Rgt_dec (y p) (height c) then set_y p 0 else p in
  p.

(** The fill colour chosen for a particle (lines 45, 48-50). *)
Definition particle_color (p : particle) : color :=
  let alpha := (Math.sin (life p) * 0.4 + 0.5) * 0.6 in
  match type p with
  | cyan => rgba 0 212 255 alpha
  | acid => rgba 57 255 20 (alpha * 0.7)
  end.

(** One iteration of the [forEach] callback: the particle is updated
    in place and then painted. *)
Definition draw_particle (c : canvas) (p : particle) : particle * list op :=
  let p := update c p in
  (p, [beginPath;
       arc (x p) (y p) (r p) 0 (Math.PI * 2);
       fillStyle (particle_color p);
       fill]).

(** [particles.forEach(p => ...)]: the updated array and the context
    calls it made. *)
Fixpoint forEach (c : canvas) (ps : list particle) : list particle * list op :=
  match ps with
  | [] => ([], [])
  | p :: rest =>
      let '(p', ops) := draw_particle c p in
      let '(rest', ops') := forEach c rest in
      (p' :: rest', ops ++ ops')
  end.

(** ** Connection lines (lines 55-69) *)

(** A pair that passed the [dist < 90] test, with the alpha of its
    stroke style. *)
Record connection : Type := mkConnection {
  ci : nat;
  cj : nat;
  linkAlpha : R
}.

Definition distance (p q : particle) : R :=
  let dx := x p - x q in
  let dy := y p - y q in
  Math.hypot dx dy.

(** Body of the inner loop for indices [i] and [j]. *)
Definition connect (ps : list particle) (i j : nat) : list connection :=
  match nth_error ps i, nth_error ps j with
  | Some p, Some q =>
      let dist := distance p q in
      if Rlt_dec dist 90
      then [mkConnection i j (0.07 * (1 - dist / 90))]
      else []
  | _, _ => []
  end.

(** [for (i = 0; i < length; i++) for (j = i + 1; j < length; j++)]. *)
Definition connections (ps : list particle) : list connection :=
  flat_map
    (fun i => flat_map (connect ps i)
                (seq (i + 1) (length ps - (i + 1))))
    (seq 0 (length ps)).

(** The context calls made for one connection. *)
Definition stroke_connection (ps : list particle) (k : connection) : list op :=
  match nth_error ps (ci k), nth_error ps (cj k) with
  | Some p, Some q =>
      [beginPath;
       moveTo (x p) (y p);
       lineTo (x q) (y q);
       strokeStyle (rgba 0 212 255 (linkAlpha k));
       lineWidth 0.5;
       stroke]
  | _, _ => []
  end.

Definition connection_lines (ps : list particle) : list op :=
  flat_map (stroke_connection ps) (connections ps).

(** ** The effect: closure variables and the browser around them *)

Record state : Type := mkState {
  (** [canvas.width], [canvas.height] *)
  cv : canvas;
  (** [let particles] *)
  particles : list particle;
  (** [let animId]; [None] is [undefined] *)
  animId : option nat;
  (** every call made on [ctx] so far, oldest first *)
  ctx : list op;
  (** how many times [Math.random] has been called *)
  calls : nat;
  (** the browser's list of animation frame callbacks, by handle;
      [draw] is the only callback ever registered *)
  frames : list nat;
  (** the handle the next [requestAnimationFrame] returns *)
  next_handle : nat;
  (** whether [resize] is registered as a listener on [window] *)
  listening : bool
}.

Definition set_cv (s : state) (c : canvas) : state :=
  mkState c (particles s) (animId s) (ctx s) (calls s) (frames s)
          (next_handle s) (listening s).
Definition set_particles (s : state) (ps : list particle) : state :=
  mkState (cv s) ps (animId s) (ctx s) (calls s) (frames s)
          (next_handle s) (listening s).
Definition set_animId (s : state) (id : option nat) : state :=
  mkState (cv s) (particles s) id (ctx s) (calls s) (frames s)
          (next_handle s) (listening s).
Definition set_calls (s : state) (n : nat) : state :=
  mkState (cv s) (particles s) (animId s) (ctx s) n (frames s)
          (next_handle s) (listening s).
Definition set_frames (s : state) (hs : list nat) : state :=
  mkState (cv s) (particles s) (animId s) (ctx s) (calls s) hs
          (next_handle s) (listening s).
Definition set_listening (s : state) (b : bool) : state :=
  mkState (cv s) (particles s) (animId s) (ctx s) (calls s) (frames s)
          (next_handle s) b.

(** Issue context calls. *)
Definition emit (s : state) (ops : list op) : state :=
  mkState (cv s) (particles s) (animId s) (ctx s ++ ops) (calls s) (frames s)
          (next_handle s) (listening s).

(** [requestAnimationFrame(draw)]: the callback is appended to the
    list and its handle returned. *)
Definition requestAnimationFrame (s : state) : nat * state :=
  let h := next_handle s in
  (h, mkState (cv s) (particles s) (animId s) (ctx s) (calls s)
              (frames s ++ [h]) (S h) (listening s)).

(** [cancelAnimationFrame(id)]: removes the entry with that handle, if
    any; [undefined] names no entry. *)
Definition cancelAnimationFrame (id : option nat) (s : state) : state :=
  match id with
  | Some h => set_frames s (remove Nat.eq_dec h (frames s))
  | None => s
  end.

Section ParticleGrid.

(** [random n] is the value returned by call number [n] of
    [Math.random] (counting from 0). *)
Variable random : nat -> R.

(** The object literal of lines 22-30, evaluated when [n] calls of
    [Math.random] have been made; it makes seven more, in field
    order. *)
Definition new_particle (c : canvas) (n : nat) : particle :=
  mkParticle
    (random n * width c)
    (random (n + 1) * height c)
    (random (n + 2) * 1.4 + 0.2)
    ((random (n + 3) - 0.5) * 0.2)
    ((random (n + 4) - 0.5) * 0.2)
    (random (n + 5) * Math.PI * 2)
    (if Rgt_dec (random (n + 6)) 0.4 then cyan else acid).

(** [for (let i = 0; i < count; i++) particles.push({...})], with
    [count] iterations left. *)
Fixpoint push_particles (c : canvas) (count n : nat) (ps : list particle)
  : list particle * nat :=
  match count with
  | O => (ps, n)
  | S count' => push_particles c count' (n + 7) (ps ++ [new_particle c n])
  end.

(** [init] (lines 18-32).  The loop runs while [i < count] from
    [i = 0], that is [Z.to_nat count] times. *)
Definition init (s : state) : state :=
  let s := set_particles s [] in
  let count := Math.floor (width (cv s) * height (cv s) / 16000) in
  let '(ps, n) :=
    push_particles (cv s) (Z.to_nat count) (calls s) (particles s) in
  set_calls (set_particles s ps) n.

(** [resize] (lines 12-16); the arguments are the values read from
    [window.innerWidth] and [window.innerHeight]. *)
Definition resize (innerWidth innerHeight : R) (s : state) : state :=
  let s := set_cv s (mkCanvas innerWidth (height (cv s))) in
  let s := set_cv s (mkCanvas (width (cv s)) innerHeight) in
  init s.

(** [draw] (lines 34-71). *)
Definition draw (s : state) : state :=
  let s := emit s [clearRect 0 0 (width (cv s)) (height (cv s))] in
  let '(ps, ops) := forEach (cv s) (particles s) in
  let s := emit (set_particles s ps) ops in
  let s := emit s (connection_lines (particles s)) in
  let '(h, s) := requestAnimationFrame s in
  set_animId s (Some h).

(** The function returned by the effect (line 76). *)
Definition cleanup (s : state) : state :=
  let s := cancelAnimationFrame (animId s) s in
  set_listening s false.

(** The browser runs the animation frame callbacks: the list is taken
    and emptied, then each callback in it is invoked. *)
Definition run_frames (s : state) : state :=
  let hs := frames s in
  fold_left (fun s' _ => draw s') hs (set_frames s []).

(** The state before the effect runs: a canvas of the default size,
    nothing drawn, no callback or listener registered. *)
Definition unmounted : state :=
  mkState (mkCanvas 300 150) [] None [] 0 [] 1 false.

(** The effect body (lines 73-75) in a window of the given size. *)
Definition mount (innerWidth innerHeight : R) : state :=
  let s := resize innerWidth innerHeight unmounted in
  let s := draw s in
  set_listening s true.

(** What the browser can do to a mounted component. *)
Inductive event : Type :=
| Frame
| WindowResize (innerWidth innerHeight : R)
| Unmount.

Definition handle (s : state) (e : event) : state :=
  match e with
  | Frame => run_frames s
  | WindowResize w h => if listening s then resize w h s else s
  | Unmount => cleanup s
  end.

Definition run (es : list event) (s : state) : state :=
  fold_left handle es s.

(** [n] simulation steps over a pool, for fixed canvas bounds. *)
Fixpoint steps (c : canvas) (n : nat) (ps : list particle) : list particle :=
  match n with
  | O => ps
  | S n' => steps c n' (fst (forEach c ps))
  end.

End ParticleGrid.

(** ** The simulation step on binary64 numbers *)

Module Double.

Import Floats.PrimFloat.

Record particle : Type := mkParticle {
  x : float;
  y : float;
  r : float;
  vx : float;
  vy : float;
  life : float;
  type : ptype
}.

(** Lines 37-43, with IEEE 754 addition and comparison. *)
#[warnings="-inexact-float"]
Definition update (width height : float) (p : particle) : particle :=
  let life' := (life p + 0.004)%float in
  let x' := (x p + vx p)%float in
  let y' := (y p + vy p)%float in
  let x' := if (x' <? 0)%float then width else x' in
  let x' := if (width <? x')%float then 0%float else x' in
  let y' := if (y' <? 0)%float then height else y' in
  let y' := if (height <? y')%float then 0%float else y' in
  mkParticle x' y' (r p) (vx p) (vy p) life' (type p).

Definition side : float := 400%float.

(** The particle [leftward] below, in binary64. *)
Definition leftward : particle :=
  mkParticle 0 200 1 (-0.0625) 0 0 cyan.

Definition inside (width height : float) (p : particle) : bool :=
  (0 <=? x p)%float && (x p <? width)%float
  && (0 <=? y p)%float && (y p <? height)%float.

End Double.

(** ** Vocabulary of the specification *)

(** Wrap-around of one coordinate against its bound: a coordinate that
    left through the low edge lands on the bound, one that left through
    the high edge lands on 0, anything else stays. *)
Definition wrap (v bound : R) : R :=
  if Rlt_dec v 0 then bound
  else if Rgt_dec v bound then 0
  else v.

(** The specified simulation step on one particle. *)
Definition step_spec (c : canvas) (p : particle) : particle :=
  mkParticle
    (wrap (x p + vx p) (width c))
    (wrap (y p + vy p) (height c))
    (r p) (vx p) (vy p)
    (life p + 0.004)
    (type p).

(** The position range the data model announces, half-open. *)
Definition inside (c : canvas) (p : particle) : Prop :=
  (0 <= x p < width c) /\ (0 <= y p < height c).

(** The same range with the far edges included. *)
Definition within (c : canvas) (p : particle) : Prop :=
  (0 <= x p <= width c) /\ (0 <= y p <= height c).

Definition clamp (v lo hi : R) : R := Rmax lo (Rmin v hi).

Definition baseOpacity (t : ptype) : R :=
  match t with
  | cyan => 0.6
  | acid => 0.42
  end.

(** The number of particles [init] asks for on a canvas. *)
Definition pool_count (c : canvas) : nat :=
  Z.to_nat (Math.floor (width c * height c / 16000)).

(** The kind a particle gets from the value of its last draw
    (line 29). *)
Definition kind_of_draw (u : R) : ptype :=
  if Rgt_dec u 0.4 then cyan else acid.

Definition same_kind (t u : ptype) : bool :=
  match t, u with
  | cyan, cyan | acid, acid => true
  | _, _ => false
  end.

(** Among the [N] equally spaced draws 0/N, 1/N, ..., (N-1)/N, how
    many give kind [t]. *)
Definition kind_count (t : ptype) (N : nat) : nat :=
  length (filter (fun k => same_kind t (kind_of_draw (INR k / INR N)))
                 (seq 0 N)).

(** The specified fill alpha of a particle and the calls that paint
    it. *)
Definition fill_alpha (p : particle) : R :=
  clamp (Math.sin (life p) * 0.4 + 0.5) 0 1 * baseOpacity (type p).

Definition painted (p : particle) : list op :=
  [beginPath;
   arc (x p) (y p) (r p) 0 (Math.PI * 2);
   fillStyle (match type p with
              | cyan => rgba 0 212 255 (fill_alpha p)
              | acid => rgba 57 255 20 (fill_alpha p)
              end);
   fill].

(** The specified stroke of a link: its alpha for two particles and
    the six context calls that draw it. *)
Definition link_alpha (p q : particle) : R :=
  0.07 * (1 - dist_euc (x p) (y p) (x q) (y q) / 90).

Definition link_stroke (p q : particle) : list op :=
  [beginPath;
   moveTo (x p) (y p);
   lineTo (x q) (y q);
   strokeStyle (rgba 0 212 255 (link_alpha p q));
   lineWidth 0.5;
   stroke].

(** The pair [(p, q)] when the two are less than 90 apart. *)
Definition close_to (p q : particle) : list (particle * particle) :=
  if Rlt_dec (dist_euc (x p) (y p) (x q) (y q)) 90 then [(p, q)] else [].

(** Every particle with every later particle of the pool that is less
    than 90 away from it. *)
Fixpoint close_pairs (ps : list particle) : list (particle * particle) :=
  match ps with
  | [] => []
  | p :: rest => flat_map (close_to p) rest ++ close_pairs rest
  end.

(** The specified connection strokes of a frame. *)
Definition links (ps : list particle) : list op :=
  flat_map (fun pq => link_stroke (fst pq) (snd pq)) (close_pairs ps).

(** The specified stroke for the particles at two indices of the
    pool. *)
Definition link_stroke_at (ps : list particle) (ij : nat * nat) : list op :=
  match nth_error ps (fst ij), nth_error ps (snd ij) with
  | Some p, Some q => link_stroke p q
  | _, _ => []
  end.

(** No animation frame callback is registered and [resize] is not
    listening. *)
Definition stopped (s : state) : Prop :=
  frames s = [] /\ listening s = false.

(** The only callback that can be pending is the one [animId] names. *)
Definition one_pending (s : state) : Prop :=
  frames s = [] \/ exists h, animId s = Some h /\ frames s = [h].

(** ** Sample data *)

Definition canvas400 : canvas := mkCanvas 400 400.

(** A particle on the left edge drifting left; every field is in the
    range [init] draws it from. *)
Definition leftward : particle :=
  mkParticle 0 200 1 (- (1 / 16)) 0 0 cyan.

(** A particle about to cross the right edge. *)
Definition rightward : particle :=
  mkParticle 400 200 1 (1 / 16) 0 0 acid.

(** A particle that lands exactly on the right edge. *)
Definition landing : particle :=
  mkParticle (400 - 1 / 16) 200 1 (1 / 16) 0 0 cyan.

(** Window sizes a browser can report. *)
Definition nonneg_size (e : event) : Prop :=
  match e with
  | WindowResize w h => 0 <= w /\ 0 <= h
  | Frame | Unmount => True
  end.

(** The canvas has a size and every particle is on it, far edges
    included. *)
Definition on_canvas (s : state) : Prop :=
  0 <= width (cv s) /\ 0 <= height (cv s)
  /\ Forall (within (cv s)) (particles s).

(** Two particles 89.9 apart and two particles 90.1 apart. *)
Definition origin : particle := mkParticle 0 0 1 0 0 0 cyan.

Definition near : particle := mkParticle 89.9 0 1 0 0 0 cyan.

Definition far : particle := mkParticle 90.1 0 1 0 0 0 acid.

(** A cyclic run of draws 0, 0.1, ..., 0.9, 0, ... for [Math.random]. *)
Definition sample_draws (n : nat) : R := INR (n mod 10) / 10.

(** ** Reading the context log and the event history *)

Definition is_clearRect (o : op) : bool :=
  match o with
  | clearRect _ _ _ _ => true
  | _ => false
  end.

(** How many times the canvas has been cleared, that is how many times
    [draw] has run. *)
Definition clears (ops : list op) : nat := length (filter is_clearRect ops).

Definition is_frame (e : event) : bool :=
  match e with
  | Frame => true
  | _ => false
  end.

Definition frame_count (es : list event) : nat := length (filter is_frame es).

Definition still_mounted (e : event) : Prop :=
  match e with
  | Unmount => False
  | Frame | WindowResize _ _ => True
  end.

(** The alpha of a fill style lies in [0.042, 0.54], that of a stroke
    style in (0, 0.07]. *)
Definition valid_alpha (o : op) : Prop :=
  match o with
  | fillStyle c => 0.042 <= alpha_of c <= 0.54
  | strokeStyle c => 0 < alpha_of c <= 0.07
  | _ => True
  end.

(** While mounted: the listener is on, exactly the callback named by
    [animId] is pending, and the canvas has been cleared [n] times. *)
Definition looping (n : nat) (s : state) : Prop :=
  listening s = true
  /\ (exists hd, animId s = Some hd /\ frames s = [hd])
  /\ clears (ctx s) = n.

(** Some frames with a resize in between. *)
Definition session : list event := [Frame; WindowResize 800 600; Frame].

(** ** The count-up animation

    [useCounter] (home page) and [AnimatedNum] (impact page) run the
    same frame callback: the elapsed share of [duration], capped at 1,
    is eased by 1 - (1 - p)^3 and the rounded product with [target] is
    shown; the callback asks for another frame while the share is
    below 1. *)

Module Counter.

(** [Math.round]: the nearest integer, halves upwards. *)
Definition round (v : R) : Z := Int_part (v + 0.5).

Record state : Type := mkState {
  (** the number shown ([val]) *)
  val : Z;
  (** [let startTime] / [let start]; [None] is [undefined] *)
  startTime : option R;
  (** whether the callback is registered for the next frame *)
  pending : bool
}.

(** [!startTime]: [undefined] and 0 are both falsy. *)
Definition unset (t : option R) : bool :=
  match t with
  | None => true
  | Some v => if Req_dec_T v 0 then true else false
  end.

(** The frame callback, called with the frame's timestamp [ts]. *)
Definition step (target duration : R) (st : state) (ts : R) : state :=
  let start :=
    match startTime st with
    | Some v => if unset (startTime st) then ts else v
    | None => ts
    end in
  let progress := Rmin ((ts - start) / duration) 1 in
  let ease := 1 - (1 - progress) ^ 3 in
  mkState (round (ease * target)) (Some start)
          (if Rlt_dec progress 1 then true else false).

(** The state the effect leaves: 0 is shown, and the callback is
    registered when [start] / [started] is true. *)
Definition begin (start : bool) : state := mkState 0 None start.

(** A frame at timestamp [ts]: the callback runs if it is registered. *)
Definition frame (target duration : R) (st : state) (ts : R) : state :=
  if pending st then step target duration st ts else st.

Definition run (target duration : R) (tss : list R) (st : state) : state :=
  fold_left (frame target duration) tss st.

(** Timestamps that never go back, starting from [prev]. *)
Fixpoint nondecreasing (prev : R) (tss : list R) : Prop :=
  match tss with
  | [] => True
  | t :: rest => prev <= t /\ nondecreasing t rest
  end.

(** The number shown at time [u] by an animation started at [t0]. *)
Definition shown (target duration t0 u : R) : Z :=
  round ((1 - (1 - Rmin ((u - t0) / duration) 1) ^ 3) * target).

(** The number shown is between 0 and the target [n], and the start
    time is not after the latest frame [u]. *)
Definition in_range (n : Z) (u : R) (st : state) : Prop :=
  (0 <= val st <= n)%Z
  /\ match startTime st with
     | Some s => s <= u
     | None => True
     end.

(** The animation started at [t0] shows, at the latest frame [u], the
    eased share of the target [n] for the time elapsed since [t0], and
    it is still asking for frames exactly while [u] is less than
    [duration] after [t0]. *)
Definition tracking (duration : R) (n : Z) (t0 u : R) (st : state) : Prop :=
  startTime st = Some t0
  /\ val st = shown (IZR n) duration t0 u
  /\ (pending st = true <-> u < t0 + duration).

(** Frame timestamps of a run of the "Active Listings" card of the
    home page (target 247, duration 1600), first frame at 100. *)
Definition ticks : list R := [116; 900; 1700; 1716].

End Counter.

(** ** The chat threads ([Chat], pages/Profile.jsx lines 219-246 and
    the handlers of its buttons and inputs) *)

Module Chat.

Import String.

(** A message carries either a text or an offer. *)
Inductive content : Type :=
| text (t : string)
| offer (amount label : string).

Record message : Type := mkMessage {
  id : Z;
  mine : bool;
  body : content;
  time : string
}.

Record thread : Type := mkThread {
  tid : string;
  title : string;
  price : string;
  emoji : string;
  messages : list message
}.

(** The component's state variables. *)
Record state : Type := mkState {
  threads : list thread;
  activeId : string;
  input : string;
  showOffer : bool;
  offerAmt : string
}.

(** Truthiness of an argument that is [null] or a string. *)
Definition truthy (v : option string) : bool :=
  match v with
  | Some s => negb (s =? "")%string
  | None => false
  end.

(** The string held by an argument; [null] is never read. *)
Definition value (v : option string) : string :=
  match v with
  | Some s => s
  | None => ""%string
  end.

(** [{ ...t, messages: [...t.messages, msg] }] *)
Definition add_message (t : thread) (msg : message) : thread :=
  mkThread (tid t) (title t) (price t) (emoji t) (messages t ++ [msg]).

Section SendMsg.

(** [parseFloat(offer).toFixed(2)], left to the platform. *)
Variable toFixed2 : string -> string.

(** [sendMsg(text, offer)] (lines 233-246); [now] is [Date.now()] and
    [clock] the formatted time of day. *)
Definition sendMsg (now : Z) (clock : string) (txt off : option string)
           (s : state) : state :=
  if negb (truthy txt) && negb (truthy off) then s
  else
    let msg :=
      if truthy off
      then mkMessage now true (offer (toFixed2 (value off)) "Your Offer") clock
      else mkMessage now true (text (value txt)) clock in
    mkState
      (map (fun t => if (tid t =? activeId s)%string then add_message t msg else t)
           (threads s))
      (activeId s) ""%string false ""%string.

(** What the user can do on the page. *)
Inductive event : Type :=
| SelectThread (i : string)
| ToggleOffer
| CloseOffer
| TypeOffer (v : string)
| TypeInput (v : string)
| SendOffer (now : Z) (clock : string)
| SendInput (now : Z) (clock : string).

Definition handle (s : state) (e : event) : state :=
  match e with
  | SelectThread i => mkState (threads s) i (input s) (showOffer s) (offerAmt s)
  | ToggleOffer =>
      mkState (threads s) (activeId s) (input s) (negb (showOffer s)) (offerAmt s)
  | CloseOffer => mkState (threads s) (activeId s) (input s) false (offerAmt s)
  | TypeOffer v => mkState (threads s) (activeId s) (input s) (showOffer s) v
  | TypeInput v => mkState (threads s) (activeId s) v (showOffer s) (offerAmt s)
  | SendOffer now clock =>
      if truthy (Some (offerAmt s))
      then sendMsg now clock None (Some (offerAmt s)) s
      else s
  | SendInput now clock => sendMsg now clock (Some (input s)) None s
  end.

Definition run (es : list event) (s : state) : state := fold_left handle es s.

End SendMsg.

(** A thread has kept its identity and all its earlier messages, in
    order, and has gained own messages only. *)
Definition extends (old new : thread) : Prop :=
  tid new = tid old /\ title new = title old
  /\ price new = price old /\ emoji new = emoji old
  /\ exists added,
       messages new = messages old ++ added
       /\ Forall (fun m => mine m = true) added.

(** The number of messages over all threads. *)
Definition total (ts : list thread) : nat :=
  list_sum (map (fun t => List.length (messages t)) ts).

(** Two threads for the examples. *)
Definition books : thread :=
  mkThread "1" "DSP Textbook" "8 ALGO" "B"
           [mkMessage 1 false (text "Hi! Is the textbook still available?") "2:14 PM"].

Definition cycle : thread :=
  mkThread "2" "Hero Sprint Cycle 2023" "85 ALGO" "C" [].

Definition opened : state :=
  mkState [books; cycle] "1" "Yes!" false "".

Definition noon : string := "12:00 PM".

End Chat.

(** ** The simulation step *)

Ltac split_tests :=
  repeat match goal with
         | |- context [Rlt_dec ?a ?b] => destruct (Rlt_dec a b); simpl in *
         | |- context [Rgt_dec ?a ?b] => destruct (Rgt_dec a b); simpl in *
         end.

Lemma update_is_step_spec (c : canvas) (p : particle) :
  update c p = step_spec c p.
Proof.
  unfold update, step_spec, wrap; simpl.
  split_tests; solve [reflexivity | exfalso; lra].
Qed.

Lemma forEach_particles (c : canvas) (ps : list particle) :
  fst (forEach c ps) = map (update c) ps.
Proof.
  induction ps as [| p rest IH]; cbn; [reflexivity |].
  destruct (forEach c rest) as [rest' ops']; cbn in *.
  now rewrite IH.
Qed.

Lemma steps_map (c : canvas) (n : nat) (ps : list particle) :
  steps c n ps = map (fun p => Nat.iter n (update c) p) ps.
Proof.
  revert ps; induction n as [| n IH]; intros ps; cbn [steps].
  - cbn. now rewrite map_id.
  - rewrite IH, forEach_particles, map_map.
    apply map_ext; intros p.
    symmetry; apply Nat.iter_succ_r.
Qed.

Lemma wrap_range (v bound : R) :
  0 <= bound -> 0 <= wrap v bound <= bound.
Proof.
  intros Hb; unfold wrap.
  destruct (Rlt_dec v 0); [lra |].
  destruct (Rgt_dec v bound); lra.
Qed.

Lemma update_within (c : canvas) (p : particle) :
  0 <= width c -> 0 <= height c -> within c (update c p).
Proof.
  intros Hw Hh; rewrite update_is_step_spec; unfold within, step_spec; cbn.
  split; apply wrap_range; assumption.
Qed.

Lemma iter_update_within (c : canvas) (n : nat) (p : particle) :
  0 <= width c -> 0 <= height c -> within c p ->
  within c (Nat.iter n (update c) p).
Proof.
  intros Hw Hh Hp; destruct n as [| n]; cbn; [assumption |].
  now apply update_within.
Qed.

Lemma iter_update_fixed (c : canvas) (n : nat) (p : particle) :
  r (Nat.iter n (update c) p) = r p
  /\ vx (Nat.iter n (update c) p) = vx p
  /\ vy (Nat.iter n (update c) p) = vy p
  /\ type (Nat.iter n (update c) p) = type p.
Proof.
  induction n as [| n IH]; [now repeat split |].
  rewrite Nat.iter_succ, update_is_step_spec; exact IH.
Qed.

Lemma draw_particles (s : state) :
  particles (draw s) = map (update (cv s)) (particles s).
Proof.
  unfold draw; cbn.
  rewrite <- forEach_particles.
  destruct (forEach (cv s) (particles s)) as [ps ops]; reflexivity.
Qed.

Lemma draw_frame (s : state) :
  cv (draw s) = cv s
  /\ calls (draw s) = calls s
  /\ listening (draw s) = listening s
  /\ animId (draw s) = Some (next_handle s)
  /\ frames (draw s) = frames s ++ [next_handle s]
  /\ next_handle (draw s) = S (next_handle s).
Proof.
  unfold draw; cbn.
  destruct (forEach (cv s) (particles s)) as [ps ops]; cbn.
  now repeat split.
Qed.

(** C4. One simulation step, as [draw] performs it on the pool: every
    particle gets its phase advanced by exactly 0.004 and its position
    advanced by its velocity, then wrapped on the x axis against the
    canvas width and on the y axis against the canvas height, each
    axis on its own.  The new pool is a function of the old pool and
    the bounds alone, and the step leaves the bounds, the random source
    and the listener registration as they were. *)
Theorem simulation_step (s : state) :
  particles (draw s) = map (step_spec (cv s)) (particles s)
  /\ (forall p, In p (particles s) ->
        life (update (cv s) p) = life p + 0.004
        /\ x (update (cv s) p) = wrap (x p + vx p) (width (cv s))
        /\ y (update (cv s) p) = wrap (y p + vy p) (height (cv s)))
  /\ (forall s', particles s' = particles s -> cv s' = cv s ->
        particles (draw s') = particles (draw s))
  /\ cv (draw s) = cv s
  /\ calls (draw s) = calls s
  /\ listening (draw s) = listening s.
Proof.
  destruct (draw_frame s) as (Hcv & Hcalls & Hl & _).
  repeat split; try assumption.
  - rewrite draw_particles. apply map_ext, update_is_step_spec.
  - now rewrite update_is_step_spec.
  - now rewrite update_is_step_spec.
  - now rewrite update_is_step_spec.
  - intros s' Hps Hc. rewrite !draw_particles. now rewrite Hps, Hc.
Qed.

(** C8. Radius, velocity and kind of every particle are the same after
    any number of simulation steps as before them; a step writes the
    position and phase fields only. *)
Theorem step_keeps_radius_velocity_kind (c : canvas) (n : nat) (ps : list particle) :
  map r (steps c n ps) = map r ps
  /\ map vx (steps c n ps) = map vx ps
  /\ map vy (steps c n ps) = map vy ps
  /\ map type (steps c n ps) = map type ps
  /\ (forall p,
        update c p =
        set_life (set_y (set_x p (x (update c p))) (y (update c p)))
                 (life (update c p))).
Proof.
  rewrite steps_map, !map_map.
  repeat split; try (apply map_ext; intros p; apply iter_update_fixed).
  intros p; rewrite update_is_step_spec; reflexivity.
Qed.

(** C10. The wrap-around drops the overshoot: a coordinate that the
    velocity made strictly negative becomes exactly the bound, one made
    strictly greater than the bound becomes exactly 0, and one that
    lands exactly on the bound stays there.  A particle that starts
    inside the canvas can so sit at [x = width] after one step. *)
Theorem wrap_discards_overshoot (c : canvas) (p : particle) :
  0 <= width c -> 0 <= height c ->
  (x p + vx p < 0 -> x (update c p) = width c)
  /\ (x p + vx p > width c -> x (update c p) = 0)
  /\ (x p + vx p = width c -> x (update c p) = width c)
  /\ (y p + vy p < 0 -> y (update c p) = height c)
  /\ (y p + vy p > height c -> y (update c p) = 0)
  /\ (y p + vy p = height c -> y (update c p) = height c)
  /\ (exists c0 p0, inside c0 p0 /\ x (update c0 p0) = width c0).
Proof.
  intros Hw Hh; rewrite update_is_step_spec; unfold step_spec, wrap; cbn.
  repeat split; try (intros H; split_tests; lra).
  exists canvas400, leftward.
  rewrite update_is_step_spec; unfold inside, step_spec, wrap, canvas400, leftward; cbn.
  split; [lra |]. split_tests; lra.
Qed.

(** C1, as the code has it.  Starting from positions in
    [0, width) x [0, height), after any number of simulation steps every
    particle has [0 <= x <= width] and [0 <= y <= height]: the far edges
    themselves can be reached. *)
Theorem wrap_invariant_closed (c : canvas) (n : nat) (ps : list particle) :
  Forall (inside c) ps -> Forall (within c) (steps c n ps).
Proof.
  intros Hps; rewrite steps_map; apply Forall_map.
  apply Forall_impl with (2 := Hps); intros p [Hx Hy].
  apply iter_update_within; unfold within; lra.
Qed.

(** ** The particle pool *)

Section Pool.

Variable random : nat -> R.

Lemma push_particles_spec (c : canvas) (count n : nat) (ps : list particle) :
  push_particles random c count n ps =
  (ps ++ map (fun i => new_particle random c (n + 7 * i)) (seq 0 count),
   (n + 7 * count)%nat).
Proof.
  revert n ps; induction count as [| count IH]; intros n ps.
  - cbn. now rewrite app_nil_r, Nat.add_0_r.
  - cbn [push_particles]. rewrite IH, <- app_assoc. f_equal.
    + cbn [seq map app]. rewrite Nat.mul_0_r, Nat.add_0_r.
      rewrite <- seq_shift, map_map. do 2 f_equal.
      apply map_ext; intros i. f_equal; lia.
    + lia.
Qed.

Lemma init_spec (s : state) :
  particles (init random s) =
    map (fun i => new_particle random (cv s) (calls s + 7 * i))
        (seq 0 (pool_count (cv s)))
  /\ calls (init random s) = (calls s + 7 * pool_count (cv s))%nat
  /\ cv (init random s) = cv s
  /\ ctx (init random s) = ctx s
  /\ animId (init random s) = animId s
  /\ frames (init random s) = frames s
  /\ next_handle (init random s) = next_handle s
  /\ listening (init random s) = listening s.
Proof.
  unfold init, pool_count; cbn.
  rewrite push_particles_spec; cbn.
  now repeat split.
Qed.

Lemma resize_spec (w h : R) (s : state) :
  particles (resize random w h s) =
    map (fun i => new_particle random (mkCanvas w h) (calls s + 7 * i))
        (seq 0 (pool_count (mkCanvas w h)))
  /\ calls (resize random w h s) = (calls s + 7 * pool_count (mkCanvas w h))%nat
  /\ cv (resize random w h s) = mkCanvas w h
  /\ ctx (resize random w h s) = ctx s
  /\ animId (resize random w h s) = animId s
  /\ frames (resize random w h s) = frames s
  /\ next_handle (resize random w h s) = next_handle s
  /\ listening (resize random w h s) = listening s.
Proof.
  unfold resize.
  exact (init_spec
           (set_cv (set_cv s (mkCanvas w (height (cv s)))) (mkCanvas w h))).
Qed.

Lemma floor_nonneg (v : R) : 0 <= v -> (0 <= Math.floor v)%Z.
Proof.
  intros Hv; unfold Math.floor.
  destruct (base_Int_part v) as [_ Hlow].
  apply Z.lt_succ_r, lt_IZR. rewrite succ_IZR. lra.
Qed.

Lemma floor_small (v : R) : v < 1 -> (Math.floor v <= 0)%Z.
Proof.
  intros Hv; unfold Math.floor.
  destruct (base_Int_part v) as [Hup _].
  apply Z.lt_succ_r, lt_IZR. rewrite succ_IZR. lra.
Qed.

Lemma pool_count_floor (c : canvas) :
  0 <= width c * height c ->
  Z.of_nat (pool_count c) = Math.floor (width c * height c / 16000).
Proof.
  intros Hwh; unfold pool_count.
  apply Z2Nat.id, floor_nonneg. lra.
Qed.

Lemma pool_count_small (c : canvas) :
  width c * height c < 16000 -> pool_count c = 0%nat.
Proof.
  intros Hs; unfold pool_count.
  assert (Math.floor (width c * height c / 16000) <= 0)%Z
    by (apply floor_small; lra).
  lia.
Qed.

(** C3. On a canvas whose area width * height is not negative (so for
    every width and height a canvas can have), the pool holds exactly
    floor(width * height / 16000) particles after [init] and after
    [resize]; when width * height < 16000 (zero sizes included) both
    succeed with an empty pool. *)
Theorem pool_size (w h : R) (s : state) :
  0 <= w * h ->
  (cv s = mkCanvas w h ->
     Z.of_nat (length (particles (init random s))) = Math.floor (w * h / 16000))
  /\ Z.of_nat (length (particles (resize random w h s))) = Math.floor (w * h / 16000)
  /\ (w * h < 16000 ->
        particles (resize random w h s) = []
        /\ (cv s = mkCanvas w h -> particles (init random s) = [])).
Proof.
  intros Hwh.
  destruct (init_spec s) as (Hi & _).
  destruct (resize_spec w h s) as (Hr & _).
  rewrite Hi, Hr, !length_map, !length_seq.
  split; [| split].
  - intros ->. now apply (pool_count_floor (mkCanvas w h)).
  - now apply (pool_count_floor (mkCanvas w h)).
  - intros Hs. split.
    + now rewrite (pool_count_small (mkCanvas w h)).
    + intros ->. now rewrite (pool_count_small (mkCanvas w h)).
Qed.

(** C6. [resize] always throws the old pool away and builds a new one:
    whatever the pool was, the pool after [resize w h] consists of
    floor(w * h / 16000) particles, each made from seven values that
    [Math.random] had not yet returned before the call.  This is so
    when the canvas already had the size [w] x [h], and a second
    [resize] with the same arguments builds yet another pool from draws
    later than those of the first. *)
Theorem resize_rebuilds_pool (w h : R) (s : state) :
  let c := mkCanvas w h in
  let s1 := resize random w h s in
  let s2 := resize random w h s1 in
  particles s1 =
      map (fun i => new_particle random c (calls s + 7 * i))
          (seq 0 (pool_count c))
  /\ (forall s', calls s' = calls s -> particles (resize random w h s') = particles s1)
  /\ length (particles s1) = Z.to_nat (Math.floor (w * h / 16000))
  /\ (0 <= w * h ->
        Z.of_nat (length (particles s1)) = Math.floor (w * h / 16000))
  /\ calls s1 = (calls s + 7 * pool_count c)%nat
  /\ particles s2 =
      map (fun i => new_particle random c (calls s1 + 7 * i))
          (seq 0 (pool_count c))
  /\ length (particles s2) = length (particles s1).
Proof.
  intros c s1 s2.
  destruct (resize_spec w h s) as (Hp1 & Hc1 & _).
  destruct (resize_spec w h s1) as (Hp2 & _).
  fold s1 in Hp1, Hc1. fold s2 in Hp2. fold c in Hp1, Hc1, Hp2.
  repeat split; try assumption.
  - intros s' Hs'. destruct (resize_spec w h s') as (Hp' & _).
    rewrite Hp', Hp1, Hs'. reflexivity.
  - rewrite Hp1, length_map, length_seq. reflexivity.
  - intros Hwh. rewrite Hp1, length_map, length_seq.
    now apply (pool_count_floor c).
  - now rewrite Hp1, Hp2, !length_map, !length_seq.
Qed.

End Pool.

(** ** Ranges of the fields drawn by [init] *)

Lemma count_from (m N : nat) :
  length (filter (fun k => m <=? k)%nat (seq 0 N)) = (N - m)%nat.
Proof.
  induction N as [| N IH]; [reflexivity |].
  rewrite seq_S, filter_app, length_app, IH. cbn [filter Nat.add].
  destruct (Nat.leb_spec m N); cbn [length]; lia.
Qed.

Lemma count_below (m N : nat) :
  length (filter (fun k => negb (m <=? k)%nat) (seq 0 N)) = Nat.min m N.
Proof.
  induction N as [| N IH]; [cbn; lia |].
  rewrite seq_S, filter_app, length_app, IH. cbn [filter Nat.add].
  destruct (Nat.leb_spec m N); cbn [length negb]; lia.
Qed.

Lemma draw_exceeds (k N : nat) :
  (0 < N)%nat ->
  (INR k / INR N > 0.4 <-> (2 * N / 5 + 1 <= k)%nat).
Proof.
  intros HN.
  assert (HNR : 0 < INR N) by (apply (lt_INR 0); assumption).
  assert (Hdiv : INR k / INR N > 0.4 <-> 2 * INR N < 5 * INR k).
  { split; intros H.
    - apply Rmult_lt_compat_r with (r := INR N) in H; [| assumption].
      unfold Rdiv in H. rewrite Rmult_assoc, Rinv_l in H; lra.
    - apply Rmult_lt_reg_r with (r := INR N); [assumption |].
      unfold Rdiv. rewrite Rmult_assoc, Rinv_l; lra. }
  rewrite Hdiv.
  assert (Hnat : 2 * INR N < 5 * INR k <-> (2 * N < 5 * k)%nat).
  { replace (2 * INR N) with (INR (2 * N)) by (rewrite mult_INR; simpl; lra).
    replace (5 * INR k) with (INR (5 * k)) by (rewrite mult_INR; simpl; lra).
    split; [apply INR_lt | apply lt_INR]. }
  rewrite Hnat.
  pose proof (Nat.div_mod_eq (2 * N) 5) as Hq.
  pose proof (Nat.mod_upper_bound (2 * N) 5) as Hm.
  lia.
Qed.

Lemma kind_count_cyan (N : nat) :
  (0 < N)%nat -> kind_count cyan N = (N - (2 * N / 5 + 1))%nat.
Proof.
  intros HN; unfold kind_count.
  rewrite <- count_from. f_equal.
  apply filter_ext_in; intros k _.
  unfold kind_of_draw.
  destruct (Rgt_dec (INR k / INR N) 0.4) as [H | H]; cbn [same_kind];
    rewrite draw_exceeds in H by assumption; symmetry.
  - now apply Nat.leb_le.
  - apply Nat.leb_gt; lia.
Qed.

Lemma kind_count_acid (N : nat) :
  (0 < N)%nat -> kind_count acid N = (2 * N / 5 + 1)%nat.
Proof.
  intros HN; unfold kind_count.
  transitivity (Nat.min (2 * N / 5 + 1) N).
  - rewrite <- count_below. f_equal.
    apply filter_ext_in; intros k _.
    unfold kind_of_draw.
    destruct (Rgt_dec (INR k / INR N) 0.4) as [H | H]; cbn [same_kind];
      rewrite draw_exceeds in H by assumption; symmetry.
    + apply negb_false_iff. now apply Nat.leb_le.
    + apply negb_true_iff. apply Nat.leb_gt; lia.
  - pose proof (Nat.div_mod_eq (2 * N) 5) as Hq.
    pose proof (Nat.mod_upper_bound (2 * N) 5) as Hm.
    lia.
Qed.

Lemma fraction_between (a b lo hi : R) :
  0 < b -> lo * b <= a <= hi * b -> lo <= a / b <= hi.
Proof.
  intros Hb [Hlo Hhi].
  assert (Ha : a / b * b = a) by (field; lra).
  split; apply Rmult_le_reg_r with (r := b); lra.
Qed.

Lemma kind_frequency (N : nat) :
  (0 < N)%nat ->
  0.6 - 1 / INR N <= INR (kind_count cyan N) / INR N <= 0.6
  /\ 0.4 <= INR (kind_count acid N) / INR N <= 0.4 + 1 / INR N.
Proof.
  intros HN.
  assert (HNR : 0 < INR N) by (apply (lt_INR 0); assumption).
  rewrite kind_count_cyan, kind_count_acid by assumption.
  pose proof (Nat.div_mod_eq (2 * N) 5) as Hq.
  pose proof (Nat.mod_upper_bound (2 * N) 5) as Hm.
  set (q := (2 * N / 5)%nat) in *.
  assert (Hlow : (5 * q <= 2 * N)%nat) by lia.
  assert (Hup : (2 * N < 5 * q + 5)%nat) by lia.
  assert (Hle : (q + 1 <= N)%nat) by lia.
  apply le_INR in Hlow. apply lt_INR in Hup.
  rewrite minus_INR by assumption.
  rewrite !plus_INR, !mult_INR in *. cbn [INR] in *.
  assert (Hone : 1 / INR N * INR N = 1) by (field; lra).
  split; apply fraction_between; try assumption; split; nra.
Qed.

Lemma squeezed_converges (f : nat -> R) (l : R) :
  (forall n, l - 1 / INR (S n) <= f n <= l + 1 / INR (S n)) ->
  Un_cv f l.
Proof.
  intros Hf eps Heps.
  assert (Hinv : 0 < 1 / eps) by (apply Rdiv_lt_0_compat; lra).
  destruct (archimed (1 / eps)) as [Hup _].
  assert (Hpos : (0 < up (1 / eps))%Z) by (apply lt_IZR; lra).
  exists (Z.to_nat (up (1 / eps))); intros n Hn.
  assert (Hbig : 1 / eps < INR (S n)).
  { apply le_INR in Hn. rewrite INR_IZR_INZ, Z2Nat.id in Hn by lia.
    rewrite S_INR. lra. }
  assert (Hsmall : 1 / INR (S n) < eps).
  { assert (HSn : 0 < INR (S n)) by lra.
    apply Rmult_lt_reg_r with (r := INR (S n)); [assumption |].
    replace (1 / INR (S n) * INR (S n)) with 1 by (field; lra).
    apply Rmult_lt_reg_r with (r := / eps);
      [apply Rinv_0_lt_compat; assumption |].
    replace (eps * INR (S n) * / eps) with (INR (S n)) by (field; lra).
    lra. }
  specialize (Hf n). unfold R_dist. apply Rabs_def1; lra.
Qed.

Lemma kind_limits :
  (forall N, (0 < N)%nat ->
     0.6 - 1 / INR N <= INR (kind_count cyan N) / INR N <= 0.6
     /\ 0.4 <= INR (kind_count acid N) / INR N <= 0.4 + 1 / INR N)
  /\ Un_cv (fun n => INR (kind_count cyan (S n)) / INR (S n)) 0.6
  /\ Un_cv (fun n => INR (kind_count acid (S n)) / INR (S n)) 0.4.
Proof.
  split; [exact kind_frequency |].
  assert (HS : forall n, 0 < 1 / INR (S n)).
  { intros n. apply Rdiv_lt_0_compat; [lra |]. apply (lt_INR 0); lia. }
  split; apply squeezed_converges; intros n;
    destruct (kind_frequency (S n) ltac:(lia)) as [Hc Ha];
    specialize (HS n); lra.
Qed.

Section Draws.

Variable random : nat -> R.

Hypothesis random_range : forall n, 0 <= random n < 1.

Lemma new_particle_ranges (c : canvas) (n : nat) :
  let p := new_particle random c n in
  0.2 <= r p < 1.6
  /\ -0.1 <= vx p < 0.1
  /\ -0.1 <= vy p < 0.1
  /\ 0 <= life p < 2 * Math.PI
  /\ type p = kind_of_draw (random (n + 6)).
Proof.
  cbn; unfold Math.PI.
  pose proof (random_range (n + 2)%nat).
  pose proof (random_range (n + 3)%nat).
  pose proof (random_range (n + 4)%nat).
  pose proof (random_range (n + 5)%nat).
  pose proof PI_RGT_0.
  repeat split; try lra; nra.
Qed.

(** C9. Whatever values in [0, 1) [Math.random] returns, every particle
    built by [init] has its radius in [0.2, 1.6), each velocity
    component in [-0.1, 0.1) and its phase in [0, 2 pi); its kind is
    Primary ([cyan]) exactly when its seventh draw exceeds 0.4 and
    Accent ([acid]) otherwise.  Over [N] equally spaced draws the share
    of Primary is within 1/N of 0.6 and the share of Accent within 1/N
    of 0.4, so that the shares tend to 0.6 and 0.4 as the draws get
    finer. *)
Theorem init_field_ranges (s : state) (i : nat) (p : particle) :
  nth_error (particles (init random s)) i = Some p ->
  0.2 <= r p < 1.6
  /\ -0.1 <= vx p < 0.1
  /\ -0.1 <= vy p < 0.1
  /\ 0 <= life p < 2 * Math.PI
  /\ (type p = cyan <-> random (calls s + 7 * i + 6) > 0.4)
  /\ (type p = acid <-> random (calls s + 7 * i + 6) <= 0.4)
  /\ (forall N, (0 < N)%nat ->
        0.6 - 1 / INR N <= INR (kind_count cyan N) / INR N <= 0.6
        /\ 0.4 <= INR (kind_count acid N) / INR N <= 0.4 + 1 / INR N)
  /\ Un_cv (fun n => INR (kind_count cyan (S n)) / INR (S n)) 0.6
  /\ Un_cv (fun n => INR (kind_count acid (S n)) / INR (S n)) 0.4.
Proof.
  destruct (init_spec random s) as (Hps & _).
  rewrite Hps, nth_error_map, nth_error_seq.
  destruct (Nat.ltb i (pool_count (cv s))); cbn [option_map]; [| discriminate].
  intros Hp.
  assert (p = new_particle random (cv s) (calls s + 7 * i)) as ->
    by (change (0 + i)%nat with i in Hp; congruence).
  destruct (new_particle_ranges (cv s) (calls s + 7 * i))
    as (Hr & Hvx & Hvy & Hl & Ht).
  split; [exact Hr |]. split; [exact Hvx |]. split; [exact Hvy |].
  split; [exact Hl |].
  split; [| split; [| exact kind_limits]];
    rewrite Ht; unfold kind_of_draw;
    destruct (Rgt_dec (random (calls s + 7 * i + 6)) 0.4);
    split; intros; try discriminate; try reflexivity; lra.
Qed.

End Draws.

(** ** Painting the particles *)

Lemma clamp_inside (v lo hi : R) : lo <= v <= hi -> clamp v lo hi = v.
Proof.
  intros [Hlo Hhi]; unfold clamp.
  rewrite Rmin_left by assumption. now apply Rmax_right.
Qed.

Lemma particle_color_alpha (p : particle) :
  alpha_of (particle_color p) = fill_alpha p.
Proof.
  unfold particle_color, fill_alpha, baseOpacity.
  pose proof (SIN_bound (life p)) as Hsin.
  rewrite clamp_inside by (unfold Math.sin; lra).
  destruct (type p); cbn; lra.
Qed.

Lemma forEach_ops (c : canvas) (ps : list particle) :
  snd (forEach c ps) = flat_map (fun p => snd (draw_particle c p)) ps.
Proof.
  induction ps as [| p rest IH]; cbn; [reflexivity |].
  destruct (forEach c rest) as [rest' ops']; cbn in *.
  now rewrite IH.
Qed.

Lemma forEach_painted (c : canvas) (ps : list particle) :
  snd (forEach c ps) = flat_map (fun p => painted (update c p)) ps.
Proof.
  rewrite forEach_ops. apply flat_map_ext; intros p.
  unfold draw_particle, painted; cbn [snd].
  do 3 f_equal.
  pose proof (particle_color_alpha (update c p)) as Ha.
  unfold particle_color in *.
  destruct (type (update c p)); cbn [alpha_of] in Ha; now rewrite Ha.
Qed.

(** A frame clears the canvas, then paints the particles, then strokes
    the connections. *)
Lemma draw_ctx (s : state) :
  ctx (draw s) =
  ctx s
  ++ [clearRect 0 0 (width (cv s)) (height (cv s))]
  ++ snd (forEach (cv s) (particles s))
  ++ connection_lines (particles (draw s)).
Proof.
  rewrite draw_particles, <- forEach_particles.
  unfold draw; cbn.
  destruct (forEach (cv s) (particles s)) as [ps ops]; cbn.
  now rewrite <- !app_assoc.
Qed.

(** C5. The circle painted for a particle is filled with alpha
    clamp(sin(phase) * 0.4 + 0.5, 0, 1) * baseOpacity, the phase being
    the one the particle has when it is painted and baseOpacity being
    0.6 for Primary and 0.42 for Accent: the calls a frame issues are
    the clearing, then for each particle the [painted] calls with that
    alpha, then the connection strokes.  An Accent particle so gets
    exactly 0.7 times the alpha of a Primary particle of the same
    phase. *)
Theorem particle_fill_alpha (s : state) :
  ctx (draw s) =
    ctx s
    ++ [clearRect 0 0 (width (cv s)) (height (cv s))]
    ++ flat_map (fun p => painted (update (cv s) p)) (particles s)
    ++ connection_lines (particles (draw s))
  /\ (forall p, alpha_of (particle_color p) = fill_alpha p)
  /\ (forall p q, type p = acid -> type q = cyan -> life p = life q ->
        alpha_of (particle_color p) = 0.7 * alpha_of (particle_color q)).
Proof.
  split; [| split].
  - rewrite draw_ctx. now rewrite forEach_painted.
  - exact particle_color_alpha.
  - intros p q Hp Hq Hl.
    unfold particle_color; rewrite Hp, Hq, Hl; cbn. lra.
Qed.

(** ** Connections *)

Lemma distance_euclidean (p q : particle) :
  distance p q = dist_euc (x p) (y p) (x q) (y q).
Proof. reflexivity. Qed.

Lemma in_connections (ps : list particle) (k : connection) :
  In k (connections ps) <->
  exists p q,
    (ci k < cj k)%nat
    /\ nth_error ps (ci k) = Some p
    /\ nth_error ps (cj k) = Some q
    /\ distance p q < 90
    /\ linkAlpha k = 0.07 * (1 - distance p q / 90).
Proof.
  unfold connections; rewrite in_flat_map; split.
  - intros (i & Hi & Hin). apply in_flat_map in Hin as (j & Hj & Hk).
    apply in_seq in Hj. unfold connect in Hk.
    destruct (nth_error ps i) as [p |] eqn:Ep; [| destruct Hk].
    destruct (nth_error ps j) as [q |] eqn:Eq; [| destruct Hk].
    cbv zeta in Hk.
    destruct (Rlt_dec (distance p q) 90) as [Hd | Hd]; [| destruct Hk].
    destruct Hk as [<- | []]; cbn.
    exists p, q. repeat split; try assumption. lia.
  - intros (p & q & Hlt & Ep & Eq & Hd & Ha).
    assert (Hj : (cj k < length ps)%nat)
      by (apply nth_error_Some; rewrite Eq; discriminate).
    exists (ci k); split; [apply in_seq; lia |].
    apply in_flat_map. exists (cj k); split; [apply in_seq; lia |].
    unfold connect. rewrite Ep, Eq. cbv zeta.
    destruct (Rlt_dec (distance p q) 90) as [_ | Hn]; [| contradiction].
    left. destruct k as [i j a]; cbn in *. now rewrite Ha.
Qed.

Lemma NoDup_flat_map_keyed {A B : Type} (key : B -> A) (f : A -> list B)
      (l : list A) :
  NoDup l ->
  (forall a, NoDup (f a)) ->
  (forall a b, In b (f a) -> key b = a) ->
  NoDup (flat_map f l).
Proof.
  intros Hl Hf Hkey; induction Hl as [| a l Ha _ IH]; cbn; [constructor |].
  apply NoDup_app; [apply Hf | exact IH |].
  intros b Hb Hin. apply in_flat_map in Hin as (a' & Ha' & Hb').
  apply Hkey in Hb; apply Hkey in Hb'. congruence.
Qed.

Lemma connect_keys (ps : list particle) (i j : nat) (k : connection) :
  In k (connect ps i j) -> ci k = i /\ cj k = j.
Proof.
  unfold connect.
  destruct (nth_error ps i); [| intros []].
  destruct (nth_error ps j); [| intros []].
  cbv zeta. destruct (Rlt_dec _ 90); [| intros []].
  intros [<- | []]; now split.
Qed.

(** No pair is connected twice. *)
Lemma connections_NoDup (ps : list particle) : NoDup (connections ps).
Proof.
  unfold connections.
  apply NoDup_flat_map_keyed with (key := ci); [apply seq_NoDup | |].
  - intros i. apply NoDup_flat_map_keyed with (key := cj); [apply seq_NoDup | |].
    + intros j. unfold connect.
      destruct (nth_error ps i); [| constructor].
      destruct (nth_error ps j); [| constructor].
      cbv zeta. destruct (Rlt_dec _ 90); [| constructor].
      constructor; [intros [] | constructor].
    + intros j k Hk. now apply connect_keys in Hk.
  - intros i k Hk. apply in_flat_map in Hk as (j & _ & Hk).
    now apply connect_keys in Hk.
Qed.

Lemma flat_map_nested {A B C : Type} (f : A -> list B) (g : B -> list C)
      (l : list A) :
  flat_map g (flat_map f l) = flat_map (fun a => flat_map g (f a)) l.
Proof.
  induction l as [| a l IH]; [reflexivity |].
  cbn [flat_map]. now rewrite flat_map_app, IH.
Qed.

Lemma skipn_nth_error {A : Type} (l : list A) (n : nat) (a : A) :
  nth_error l n = Some a -> skipn n l = a :: skipn (S n) l.
Proof.
  revert l; induction n as [| n IH]; intros [| b l] H; try discriminate.
  - injection H as ->. reflexivity.
  - cbn [nth_error] in H. change (skipn (S n) (b :: l)) with (skipn n l).
    now rewrite (IH l H).
Qed.

Lemma nth_error_in_range {A : Type} (l : list A) (n : nat) :
  (n < length l)%nat -> exists a, nth_error l n = Some a.
Proof.
  intros Hn. destruct (nth_error l n) as [a |] eqn:E; [now exists a |].
  apply nth_error_None in E. lia.
Qed.

(** The strokes of one pass of the inner loop, for the particle [p] at
    index [i] against the indices [a, a + len). *)
Lemma inner_loop_strokes (ps : list particle) (i : nat) (p : particle) :
  nth_error ps i = Some p ->
  forall len a, (a + len <= length ps)%nat ->
  flat_map (stroke_connection ps) (flat_map (connect ps i) (seq a len))
  = flat_map (fun pq => link_stroke (fst pq) (snd pq))
             (flat_map (close_to p) (firstn len (skipn a ps))).
Proof.
  intros Ei; induction len as [| len IH]; intros a Hle; [reflexivity |].
  destruct (nth_error_in_range ps a ltac:(lia)) as [q Ea].
  rewrite (skipn_nth_error ps a q Ea).
  cbn [seq firstn flat_map]. rewrite !flat_map_app, (IH (S a)) by lia.
  f_equal.
  unfold connect, close_to. rewrite Ei, Ea. cbv zeta.
  change (distance p q) with (dist_euc (x p) (y p) (x q) (y q)).
  destruct (Rlt_dec (dist_euc (x p) (y p) (x q) (y q)) 90); [| reflexivity].
  cbn [flat_map fst snd]. unfold stroke_connection; cbn [ci cj linkAlpha].
  now rewrite Ei, Ea.
Qed.

(** The strokes of the outer loop from index [m] on. *)
Lemma outer_loop_strokes (ps : list particle) :
  forall k m, (m + k = length ps)%nat ->
  flat_map
    (fun i => flat_map (stroke_connection ps)
                (flat_map (connect ps i) (seq (i + 1) (length ps - (i + 1)))))
    (seq m k)
  = links (skipn m ps).
Proof.
  induction k as [| k IH]; intros m Hm.
  - replace m with (length ps) by lia. now rewrite skipn_all.
  - destruct (nth_error_in_range ps m ltac:(lia)) as [p Em].
    rewrite (skipn_nth_error ps m p Em).
    cbn [seq flat_map]. rewrite (IH (S m)) by lia.
    unfold links at 2. cbn [close_pairs]. rewrite flat_map_app.
    fold (links (skipn (S m) ps)). f_equal.
    rewrite (inner_loop_strokes ps m p Em) by lia.
    rewrite Nat.add_1_r, firstn_all2; [reflexivity |].
    rewrite length_skipn. lia.
Qed.

Lemma connection_lines_links (ps : list particle) :
  connection_lines ps = links ps.
Proof.
  unfold connection_lines, connections. rewrite flat_map_nested.
  exact (outer_loop_strokes ps (length ps) 0 eq_refl).
Qed.

Lemma in_close_pairs (ps : list particle) (p q : particle) :
  In (p, q) (close_pairs ps) <->
  exists i j,
    (i < j)%nat
    /\ nth_error ps i = Some p
    /\ nth_error ps j = Some q
    /\ dist_euc (x p) (y p) (x q) (y q) < 90.
Proof.
  induction ps as [| p0 rest IH]; cbn [close_pairs].
  - split; [intros [] |]. intros (i & j & _ & Ei & _). now destruct i.
  - rewrite in_app_iff, in_flat_map, IH. split.
    + intros [(q0 & Hq0 & Hin) | (i & j & Hij & Ei & Ej & Hd)].
      * unfold close_to in Hin.
        destruct (Rlt_dec (dist_euc (x p0) (y p0) (x q0) (y q0)) 90) as [Hd |];
          [| destruct Hin].
        destruct Hin as [E | []]. injection E as <- <-.
        apply In_nth_error in Hq0 as (j & Ej).
        exists 0%nat, (S j). repeat split; [lia | exact Ej | exact Hd].
      * exists (S i), (S j). repeat split; [lia | exact Ei | exact Ej | exact Hd].
    + intros (i & j & Hij & Ei & Ej & Hd).
      destruct j as [| j]; [lia |]. cbn [nth_error] in Ej.
      destruct i as [| i].
      * left. injection Ei as ->. exists q. split; [now apply nth_error_In with j |].
        unfold close_to.
        destruct (Rlt_dec (dist_euc (x p) (y p) (x q) (y q)) 90);
          [now left | contradiction].
      * right. exists i, j. repeat split; [lia | exact Ei | exact Ej | exact Hd].
Qed.

(** C2. The connection strokes a frame issues are those of the
    specification: after the clearing and the painting of the
    particles, [draw] issues, for every particle and every later
    particle of the pool, in order, the six calls of [link_stroke]
    exactly when the Euclidean distance [d] of the two is below 90,
    with stroke alpha linkAlpha = 0.07 * (1 - d / 90), and nothing
    else; a pair at distance 90 or more gets no stroke.  The pairs
    are the pairs of indices [i < j].  Of two links, the one over the
    strictly longer distance has the strictly smaller linkAlpha. *)
Theorem connection_rule (s : state) :
  ctx (draw s) =
    ctx s
    ++ [clearRect 0 0 (width (cv s)) (height (cv s))]
    ++ snd (forEach (cv s) (particles s))
    ++ links (particles (draw s))
  /\ (forall ps, connection_lines ps = links ps)
  /\ (forall ps p q,
        In (p, q) (close_pairs ps) <->
        exists i j,
          (i < j)%nat
          /\ nth_error ps i = Some p
          /\ nth_error ps j = Some q
          /\ dist_euc (x p) (y p) (x q) (y q) < 90)
  /\ (forall ps i j a,
        In (mkConnection i j a) (connections ps) <->
        exists p q,
          (i < j)%nat
          /\ nth_error ps i = Some p
          /\ nth_error ps j = Some q
          /\ dist_euc (x p) (y p) (x q) (y q) < 90
          /\ a = 0.07 * (1 - dist_euc (x p) (y p) (x q) (y q) / 90))
  /\ (forall p q p' q',
        dist_euc (x p) (y p) (x q) (y q) < dist_euc (x p') (y p') (x q') (y q') ->
        link_alpha p' q' < link_alpha p q).
Proof.
  split; [| split; [| split; [| split]]].
  - now rewrite draw_ctx, connection_lines_links.
  - exact connection_lines_links.
  - exact in_close_pairs.
  - intros ps i j a. rewrite in_connections; cbn.
    split; intros (p & q & H); exists p, q;
      rewrite ?distance_euclidean in *; exact H.
  - intros p q p' q' Hlt. unfold link_alpha. lra.
Qed.

(** ** Stopping the animation *)

Section Lifecycle.

Variable random : nat -> R.

Lemma remove_twice (h : nat) (l : list nat) :
  remove Nat.eq_dec h (remove Nat.eq_dec h l) = remove Nat.eq_dec h l.
Proof.
  apply notin_remove, remove_In.
Qed.

Lemma cleanup_idempotent (s : state) : cleanup (cleanup s) = cleanup s.
Proof.
  destruct s as [c ps id ops n hs nh l].
  unfold cleanup, cancelAnimationFrame; destruct id as [h |]; cbn;
    [| reflexivity].
  now rewrite remove_twice.
Qed.

Lemma stopped_fixed (s : state) (e : event) :
  stopped s -> handle random s e = s.
Proof.
  intros [Hf Hl]; destruct s as [c ps id ops n hs nh l]; cbn in *; subst.
  destruct e; cbn; [reflexivity | reflexivity |].
  unfold cleanup, cancelAnimationFrame; destruct id; reflexivity.
Qed.

Lemma run_stopped (es : list event) (s : state) :
  stopped s -> run random es s = s.
Proof.
  intros Hs; induction es as [| e es IH]; cbn; [reflexivity |].
  now rewrite stopped_fixed.
Qed.

Lemma mount_one_pending (w h : R) : one_pending (mount random w h).
Proof.
  right; unfold mount; cbn.
  destruct (draw_frame (resize random w h unmounted)) as (_ & _ & _ & Hid & Hfr & _).
  destruct (resize_spec random w h unmounted) as (_ & _ & _ & _ & _ & Hf & Hn & _).
  rewrite Hf, Hn in Hfr; rewrite Hn in Hid; cbn in *.
  now exists 1%nat.
Qed.

Lemma handle_one_pending (s : state) (e : event) :
  one_pending s -> one_pending (handle random s e).
Proof.
  intros Hs; destruct e as [| w h |]; cbn.
  - unfold run_frames. destruct Hs as [Hf | (h & _ & Hf)]; rewrite Hf; cbn.
    + now left.
    + right. destruct (draw_frame (set_frames s [])) as (_ & _ & _ & Hid & Hfr & _).
      cbn in *. eauto.
  - destruct (listening s); [| assumption].
    destruct (resize_spec random w h s) as (_ & _ & _ & _ & Hid & Hf & _).
    unfold one_pending; now rewrite Hid, Hf.
  - left. unfold cleanup, cancelAnimationFrame.
    destruct Hs as [Hf | (h & Hid & Hf)].
    + destruct (animId s); cbn; rewrite Hf; reflexivity.
    + rewrite Hid; cbn. rewrite Hf; cbn.
      destruct (Nat.eq_dec h h); [reflexivity | contradiction].
Qed.

Lemma run_one_pending (es : list event) (s : state) :
  one_pending s -> one_pending (run random es s).
Proof.
  revert s; induction es as [| e es IH]; intros s Hs; cbn; [assumption |].
  apply IH, handle_one_pending, Hs.
Qed.

Lemma cleanup_stops (s : state) : one_pending s -> stopped (cleanup s).
Proof.
  intros Hs; unfold stopped, cleanup, cancelAnimationFrame.
  destruct Hs as [Hf | (h & Hid & Hf)].
  - destruct (animId s); cbn; rewrite Hf; now split.
  - rewrite Hid; cbn. rewrite Hf; cbn.
    destruct (Nat.eq_dec h h); [now split | contradiction].
Qed.

(** C7. Once the cleanup function has returned, nothing the browser
    does changes anything: after any history of frames and resizes
    since mounting, and then the cleanup, every further sequence of
    frame ticks (and of resize events and repeated cleanups) leaves the
    whole state, particle pool and issued context calls included, as
    the cleanup left it.  The cleanup can be run in any state, with or
    without a pending callback, and running it twice is the same as
    running it once; with nothing pending it only unregisters the
    listener. *)
Theorem stop_is_final (w h : R) (before after : list event) :
  let s := cleanup (run random before (mount random w h)) in
  run random after s = s
  /\ particles (run random after s) = particles s
  /\ ctx (run random after s) = ctx s
  /\ (forall s0, cleanup (cleanup s0) = cleanup s0)
  /\ (forall s0, frames s0 = [] -> cleanup s0 = set_listening s0 false).
Proof.
  intros s.
  assert (Hs : stopped s)
    by (apply cleanup_stops, run_one_pending, mount_one_pending).
  rewrite (run_stopped after s Hs).
  repeat split; try reflexivity.
  - apply cleanup_idempotent.
  - intros s0 Hf. unfold cleanup, cancelAnimationFrame.
    destruct (animId s0); [| reflexivity].
    destruct s0; cbn in *; subst; reflexivity.
Qed.

End Lifecycle.

(** ** Positions over the life of the component *)

Section OnCanvas.

Variable random : nat -> R.

Hypothesis random_range : forall n, 0 <= random n < 1.

Lemma new_particle_within (c : canvas) (n : nat) :
  0 <= width c -> 0 <= height c -> within c (new_particle random c n).
Proof.
  intros Hw Hh; unfold within; cbn.
  pose proof (random_range n). pose proof (random_range (n + 1)%nat).
  split; nra.
Qed.

Lemma new_particle_inside (c : canvas) (n : nat) :
  0 < width c -> 0 < height c -> inside c (new_particle random c n).
Proof.
  intros Hw Hh; unfold inside; cbn.
  pose proof (random_range n). pose proof (random_range (n + 1)%nat).
  split; nra.
Qed.

Lemma resize_on_canvas (w h : R) (s : state) :
  0 <= w -> 0 <= h -> on_canvas (resize random w h s).
Proof.
  intros Hw Hh; unfold on_canvas.
  destruct (resize_spec random w h s) as (Hps & _ & Hcv & _).
  rewrite Hps, Hcv; cbn [width height].
  repeat split; try assumption.
  apply Forall_map, Forall_forall; intros i _.
  now apply new_particle_within.
Qed.

Lemma draw_on_canvas (s : state) : on_canvas s -> on_canvas (draw s).
Proof.
  intros (Hw & Hh & _); unfold on_canvas.
  destruct (draw_frame s) as (Hcv & _).
  rewrite draw_particles, Hcv.
  repeat split; try assumption.
  apply Forall_map, Forall_forall; intros p _.
  now apply update_within.
Qed.

Lemma run_frames_on_canvas (s : state) :
  on_canvas s -> on_canvas (run_frames s).
Proof.
  intros Hs; unfold run_frames.
  assert (H0 : on_canvas (set_frames s [])) by exact Hs.
  revert H0; generalize (set_frames s []); generalize (frames s).
  intros hs; induction hs as [| h hs IH]; intros s0 H0; cbn; [assumption |].
  apply IH, draw_on_canvas, H0.
Qed.

Lemma handle_on_canvas (s : state) (e : event) :
  nonneg_size e -> on_canvas s -> on_canvas (handle random s e).
Proof.
  intros He Hs; destruct e as [| w h |]; cbn in *.
  - now apply run_frames_on_canvas.
  - destruct (listening s); [| assumption].
    now apply resize_on_canvas.
  - unfold cleanup, cancelAnimationFrame.
    destruct (animId s); exact Hs.
Qed.

(** X1. From mounting on, through frames, resizes and the cleanup,
    every particle stays within [0, width] x [0, height] of the canvas
    as it is at that moment, for draws of [Math.random] in [0, 1) and
    window sizes that are not negative. *)
Lemma positions_stay_on_canvas (w h : R) (es : list event) :
  0 <= w -> 0 <= h -> Forall nonneg_size es ->
  on_canvas (run random es (mount random w h)).
Proof.
  intros Hw Hh Hes.
  assert (H0 : on_canvas (mount random w h)).
  { unfold mount. apply (draw_on_canvas (resize random w h unmounted)).
    now apply resize_on_canvas. }
  revert H0; generalize (mount random w h).
  induction Hes as [| e es He _ IH]; intros s Hs; cbn; [assumption |].
  apply IH, handle_on_canvas; assumption.
Qed.

End OnCanvas.

(** ** Instances *)

Lemma sample_draws_range (n : nat) : 0 <= sample_draws n < 1.
Proof.
  unfold sample_draws.
  pose proof (Nat.mod_upper_bound n 10 ltac:(discriminate)) as Hm.
  pose proof (pos_INR (n mod 10)) as H0.
  apply lt_INR in Hm.
  replace (INR 10) with 10 in Hm by (cbn; lra).
  lra.
Qed.

Lemma floor_quotient (a b : Z) :
  (0 < b)%Z -> Math.floor (IZR a / IZR b) = (a / b)%Z.
Proof.
  intros Hb; unfold Math.floor; symmetry; apply Int_part_spec.
  pose proof (Z.div_mod a b ltac:(lia)) as Hdm.
  pose proof (Z.mod_pos_bound a b Hb) as [Hm0 Hm1].
  apply IZR_lt in Hb. apply IZR_le in Hm0. apply IZR_lt in Hm1.
  apply (f_equal IZR) in Hdm. rewrite plus_IZR, mult_IZR in Hdm.
  assert (Hq : IZR a / IZR b * IZR b = IZR a) by (field; lra).
  split.
  - apply Rmult_lt_reg_r with (r := IZR b); lra.
  - apply Rmult_le_reg_r with (r := IZR b); lra.
Qed.

(** The specification's example: a 400 x 400 canvas gets 10 particles,
    a 0 x 0 canvas none. *)
Lemma pool_count_examples :
  pool_count canvas400 = 10%nat /\ pool_count (mkCanvas 0 0) = 0%nat.
Proof.
  unfold pool_count, canvas400; cbn [width height]. split.
  - replace (400 * 400 / 16000) with (IZR 160000 / IZR 16000) by lra.
    rewrite floor_quotient by lia. reflexivity.
  - replace (0 * 0 / 16000) with (IZR 0 / IZR 16000) by lra.
    rewrite floor_quotient by lia. reflexivity.
Qed.

Lemma leftward_inside : Forall (inside canvas400) [leftward].
Proof.
  constructor; [| constructor].
  unfold inside, canvas400, leftward; cbn; lra.
Qed.

Lemma leftward_lands_on_width : x (update canvas400 leftward) = 400.
Proof.
  rewrite update_is_step_spec; unfold step_spec, wrap, canvas400, leftward; cbn.
  split_tests; lra.
Qed.

(** C1, as claimed, fails: a particle at x = 0 moving left by 1/16 is
    inside the 400 x 400 canvas, and one step puts it at x = 400, which
    is not below the width. *)
Lemma wrap_invariant_half_open_fails :
  Forall (inside canvas400) [leftward]
  /\ ~ Forall (inside canvas400) (steps canvas400 1 [leftward]).
Proof.
  split; [exact leftward_inside |].
  intros H. cbn in H. inversion H as [| p ps [Hx _] _]; subst.
  rewrite leftward_lands_on_width in Hx. unfold canvas400 in Hx; cbn in Hx. lra.
Qed.

Lemma wrap_invariant_closed_witness :
  Forall (inside canvas400) [leftward]
  /\ Forall (within canvas400) (steps canvas400 3 [leftward]).
Proof.
  split; [exact leftward_inside |].
  apply (wrap_invariant_closed canvas400 3 [leftward] leftward_inside).
Defined.

Lemma wrap_discards_overshoot_witness :
  0 <= width canvas400 /\ 0 <= height canvas400
  /\ (x leftward + vx leftward < 0 -> x (update canvas400 leftward) = width canvas400)
  /\ (x rightward + vx rightward > width canvas400 ->
      x (update canvas400 rightward) = 0)
  /\ (x landing + vx landing = width canvas400 ->
      x (update canvas400 landing) = width canvas400).
Proof.
  assert (Hw : 0 <= width canvas400) by (cbn; lra).
  assert (Hh : 0 <= height canvas400) by (cbn; lra).
  split; [exact Hw |]. split; [exact Hh |].
  split; [| split].
  - exact (proj1 (wrap_discards_overshoot canvas400 leftward Hw Hh)).
  - exact (proj1 (proj2 (wrap_discards_overshoot canvas400 rightward Hw Hh))).
  - exact (proj1 (proj2 (proj2 (wrap_discards_overshoot canvas400 landing Hw Hh)))).
Defined.

Lemma pool_size_witness :
  0 <= 400 * 400
  /\ Z.of_nat (length (particles (resize sample_draws 400 400 unmounted)))
     = Math.floor (400 * 400 / 16000).
Proof.
  assert (Hwh : 0 <= 400 * 400) by lra.
  split; [exact Hwh |].
  exact (proj1 (proj2 (pool_size sample_draws 400 400 unmounted Hwh))).
Defined.

Lemma init_field_ranges_witness :
  let p := new_particle sample_draws canvas400 0 in
  (forall n, 0 <= sample_draws n < 1)
  /\ nth_error (particles (init sample_draws (set_cv unmounted canvas400))) 0 = Some p
  /\ 0.2 <= r p < 1.6
  /\ -0.1 <= vx p < 0.1.
Proof.
  intros p.
  assert (Hn : nth_error
                 (particles (init sample_draws (set_cv unmounted canvas400))) 0
               = Some p).
  { destruct (init_spec sample_draws (set_cv unmounted canvas400)) as (Hps & _).
    rewrite Hps. cbn [cv set_cv calls unmounted].
    rewrite (proj1 pool_count_examples). reflexivity. }
  split; [exact sample_draws_range |]. split; [exact Hn |].
  pose proof (init_field_ranges sample_draws sample_draws_range
                (set_cv unmounted canvas400) 0 p Hn) as H.
  split; [exact (proj1 H) | exact (proj1 (proj2 H))].
Defined.

(** The specification's examples for connections: at distance 89.9 the
    pair is linked with linkAlpha 0.07 * (1 - 89.9 / 90), at distance
    90.1 it is not. *)
Lemma connection_examples :
  connections [origin; near] = [mkConnection 0 1 (0.07 * (1 - 89.9 / 90))]
  /\ connections [origin; far] = [].
Proof.
  assert (Hnear : distance origin near = 89.9).
  { unfold distance, Math.hypot, origin, near; cbn.
    replace ((0 - 89.9) * (0 - 89.9) + (0 - 0) * (0 - 0)) with (89.9 * 89.9) by lra.
    apply sqrt_square; lra. }
  assert (Hfar : distance origin far = 90.1).
  { unfold distance, Math.hypot, origin, far; cbn.
    replace ((0 - 90.1) * (0 - 90.1) + (0 - 0) * (0 - 0)) with (90.1 * 90.1) by lra.
    apply sqrt_square; lra. }
  unfold connections, connect; cbn [length seq flat_map nth_error Nat.add Nat.sub app].
  rewrite Hnear, Hfar.
  destruct (Rlt_dec 89.9 90) as [_ | H]; [| exfalso; lra].
  destruct (Rlt_dec 90.1 90) as [H | _]; [exfalso; lra |].
  split; reflexivity.
Qed.

(** The run behind [wrap_invariant_half_open_fails], in binary64: the
    particle starts inside the 400 x 400 canvas and one step leaves it
    at x = 400 exactly, which is not inside. *)
Lemma leftward_binary64 :
  Double.inside Double.side Double.side Double.leftward = true
  /\ Double.x (Double.update Double.side Double.side Double.leftward) = Double.side
  /\ Double.inside Double.side Double.side
       (Double.update Double.side Double.side Double.leftward) = false.
Proof.
  repeat split; vm_compute; reflexivity.
Qed.

(** ** More on the particle field: the running loop *)

Lemma clears_app (a b : list op) : clears (a ++ b) = (clears a + clears b)%nat.
Proof. unfold clears. now rewrite filter_app, length_app. Qed.

Lemma clears_painted (c : canvas) (ps : list particle) :
  clears (flat_map (fun p => painted (update c p)) ps) = 0%nat.
Proof.
  induction ps as [| p ps IH]; [reflexivity |].
  cbn [flat_map]. rewrite clears_app, IH. reflexivity.
Qed.

Lemma clears_connection_lines (ps : list particle) :
  clears (connection_lines ps) = 0%nat.
Proof.
  unfold connection_lines.
  induction (connections ps) as [| k ks IH]; [reflexivity |].
  cbn [flat_map]. rewrite clears_app, IH.
  unfold stroke_connection.
  destruct (nth_error ps (ci k)); [| reflexivity].
  destruct (nth_error ps (cj k)); reflexivity.
Qed.

Lemma clears_draw (s : state) : clears (ctx (draw s)) = S (clears (ctx s)).
Proof.
  rewrite draw_ctx, forEach_painted, !clears_app.
  rewrite clears_painted, clears_connection_lines. cbn. lia.
Qed.

Section Loop.

Variable random : nat -> R.

Lemma mount_looping (w h : R) : looping 1 (mount random w h).
Proof.
  unfold looping, mount; cbn.
  destruct (draw_frame (resize random w h unmounted)) as (_ & _ & _ & Hid & Hfr & _).
  destruct (resize_spec random w h unmounted) as (_ & _ & _ & Hctx & _ & Hf & _).
  pose proof (clears_draw (resize random w h unmounted)) as Hc.
  rewrite Hctx in Hc. rewrite Hf in Hfr. cbn in *.
  split; [reflexivity |]. split; [eauto | exact Hc].
Qed.

Lemma handle_looping (n : nat) (s : state) (e : event) :
  still_mounted e -> looping n s ->
  looping (if is_frame e then S n else n) (handle random s e).
Proof.
  intros He (Hl & (hd & Hid & Hf) & Hc); destruct e as [| w h |];
    cbn [handle is_frame].
  - unfold run_frames; rewrite Hf; cbn [fold_left].
    destruct (draw_frame (set_frames s [])) as (_ & _ & Hl' & Hid' & Hfr' & _).
    pose proof (clears_draw (set_frames s [])) as Hc'.
    change (ctx (set_frames s [])) with (ctx s) in Hc'.
    change (listening (set_frames s [])) with (listening s) in Hl'.
    change (frames (set_frames s [])) with (@nil nat) in Hfr'.
    unfold looping. rewrite Hl', Hc', Hc, Hl. repeat split; eauto.
  - rewrite Hl.
    destruct (resize_spec random w h s) as (_ & _ & _ & Hctx & Hid' & Hf' & _ & Hl').
    unfold looping. rewrite Hctx, Hid', Hf', Hl', Hl, Hc. repeat split; eauto.
  - destruct He.
Qed.

Lemma run_looping (n : nat) (s : state) (es : list event) :
  Forall still_mounted es -> looping n s ->
  looping (n + frame_count es) (run random es s).
Proof.
  intros Hes; revert n s.
  induction Hes as [| e es He _ IH]; intros n s Hs.
  - cbn. now rewrite Nat.add_0_r.
  - cbn [run fold_left].
    pose proof (IH _ _ (handle_looping n s e He Hs)) as H.
    unfold frame_count in *; cbn [filter].
    destruct (is_frame e); cbn [length];
      [rewrite Nat.add_succ_r |]; exact H.
Qed.

(** X2. As long as the component is not unmounted, the animation
    neither stalls nor doubles up: after any frames and resizes the
    resize listener is registered, exactly one frame callback is
    pending and it is the one [animId] names, and [draw] has run once
    at mount plus once per frame. *)
Theorem animation_keeps_running (w h : R) (es : list event) :
  Forall still_mounted es ->
  let s := run random es (mount random w h) in
  listening s = true
  /\ (exists hd, animId s = Some hd /\ frames s = [hd])
  /\ clears (ctx s) = S (frame_count es).
Proof.
  intros Hes. exact (run_looping 1 _ es Hes (mount_looping w h)).
Qed.

End Loop.

(** ** More on the particle field: pool size, phase and colours *)

Section Field.

Variable random : nat -> R.

Lemma resize_sized (w h : R) (s : state) :
  length (particles (resize random w h s)) = pool_count (cv (resize random w h s)).
Proof.
  destruct (resize_spec random w h s) as (Hps & _ & Hcv & _).
  now rewrite Hps, Hcv, length_map, length_seq.
Qed.

Lemma draw_sized (s : state) :
  length (particles s) = pool_count (cv s) ->
  length (particles (draw s)) = pool_count (cv (draw s)).
Proof.
  intros Hs. destruct (draw_frame s) as (Hcv & _).
  now rewrite draw_particles, length_map, Hcv.
Qed.

Lemma run_frames_sized (s : state) :
  length (particles s) = pool_count (cv s) ->
  length (particles (run_frames s)) = pool_count (cv (run_frames s)).
Proof.
  intros Hs; unfold run_frames.
  assert (H0 : length (particles (set_frames s [])) = pool_count (cv (set_frames s [])))
    by exact Hs.
  revert H0; generalize (set_frames s []); generalize (frames s).
  intros hs; induction hs as [| hd hs IH]; intros s0 H0; cbn; [assumption |].
  apply IH, draw_sized, H0.
Qed.

Lemma handle_sized (s : state) (e : event) :
  length (particles s) = pool_count (cv s) ->
  length (particles (handle random s e)) = pool_count (cv (handle random s e)).
Proof.
  intros Hs; destruct e as [| w h |]; cbn [handle].
  - now apply run_frames_sized.
  - destruct (listening s); [apply resize_sized | assumption].
  - unfold cleanup, cancelAnimationFrame. destruct (animId s); exact Hs.
Qed.

(** X3. At every moment of the component's life the pool holds as many
    particles as [init] counted for the canvas size of that moment:
    frames and the cleanup never add or drop a particle, only a resize
    changes the number. *)
Theorem pool_matches_canvas (w h : R) (es : list event) :
  let s := run random es (mount random w h) in
  length (particles s) = pool_count (cv s)
  /\ length (particles (run_frames s)) = length (particles s)
  /\ length (particles (cleanup s)) = length (particles s).
Proof.
  assert (Hrun : forall es s, length (particles s) = pool_count (cv s) ->
            length (particles (run random es s)) = pool_count (cv (run random es s))).
  { clear. intros es; induction es as [| e es IH]; intros s Hs; cbn; [assumption |].
    apply IH, handle_sized, Hs. }
  assert (H0 : length (particles (mount random w h)) = pool_count (cv (mount random w h))).
  { unfold mount.
    apply (draw_sized (resize random w h unmounted)), resize_sized. }
  intros s. pose proof (Hrun es _ H0) as Hs. fold s in Hs.
  split; [exact Hs |]. split.
  - rewrite (run_frames_sized s Hs), Hs. f_equal.
    unfold run_frames.
    assert (Hcv : forall hs s0, cv (fold_left (fun s' (_ : nat) => draw s') hs s0) = cv s0).
    { clear. intros hs; induction hs as [| hd hs IH]; intros s0; cbn; [reflexivity |].
      rewrite IH. apply draw_frame. }
    now rewrite Hcv.
  - unfold cleanup, cancelAnimationFrame. destruct (animId s); reflexivity.
Qed.

End Field.

Lemma iter_update_life (c : canvas) (n : nat) (p : particle) :
  life (Nat.iter n (update c) p) = life p + INR n * 0.004.
Proof.
  induction n as [| n IH]; [cbn; lra |].
  rewrite Nat.iter_succ, update_is_step_spec, S_INR; cbn [life step_spec].
  rewrite IH. lra.
Qed.

(** X4. The phase of a particle grows by 0.004 with every simulation
    step and by nothing else: after [n] steps it is the initial phase
    plus [n] times 0.004, whatever the particle's position and velocity
    and however often it was wrapped; it so strictly increases from one
    frame to the next. *)
Theorem phase_after_steps (c : canvas) (n : nat) (ps : list particle) :
  map life (steps c n ps) = map (fun p => life p + INR n * 0.004) ps
  /\ Forall2 (fun p q => life p < life q) (steps c n ps) (steps c (S n) ps).
Proof.
  rewrite !steps_map, map_map. split.
  - apply map_ext; intros p; apply iter_update_life.
  - induction ps as [| p ps IH]; cbn [map]; constructor; [| exact IH].
    rewrite !iter_update_life, S_INR. lra.
Qed.

Lemma fill_alpha_range (p : particle) : 0.042 <= fill_alpha p <= 0.54.
Proof.
  unfold fill_alpha, baseOpacity.
  pose proof (SIN_bound (life p)) as Hsin.
  rewrite clamp_inside by (unfold Math.sin; lra).
  unfold Math.sin. destruct (type p); lra.
Qed.

Lemma painted_valid (p : particle) : Forall valid_alpha (painted p).
Proof.
  pose proof (fill_alpha_range p) as Hr.
  unfold painted.
  apply Forall_cons; [exact I |]. apply Forall_cons; [exact I |].
  apply Forall_cons; [destruct (type p); exact Hr |].
  apply Forall_cons; [exact I | apply Forall_nil].
Qed.

Lemma linkAlpha_range (ps : list particle) (k : connection) :
  In k (connections ps) -> 0 < linkAlpha k <= 0.07.
Proof.
  intros Hk. apply in_connections in Hk as (p & q & _ & _ & _ & Hd & Ha).
  assert (H0 : 0 <= distance p q) by apply sqrt_pos.
  rewrite Ha. lra.
Qed.

Lemma connection_lines_valid (ps : list particle) :
  Forall valid_alpha (connection_lines ps).
Proof.
  unfold connection_lines. apply Forall_forall; intros o Ho.
  apply in_flat_map in Ho as (k & Hk & Ho).
  apply linkAlpha_range in Hk.
  unfold stroke_connection in Ho.
  destruct (nth_error ps (ci k)); [| destruct Ho].
  destruct (nth_error ps (cj k)); [| destruct Ho].
  repeat (destruct Ho as [<- | Ho]; [exact I || exact Hk |]).
  destruct Ho.
Qed.

Lemma draw_valid (s : state) :
  Forall valid_alpha (ctx s) -> Forall valid_alpha (ctx (draw s)).
Proof.
  intros Hs. rewrite draw_ctx, forEach_painted.
  repeat (apply Forall_app; split); try assumption.
  - apply Forall_cons; [exact I | apply Forall_nil].
  - apply Forall_forall; intros o Ho.
    apply in_flat_map in Ho as (p & _ & Ho).
    exact (proj1 (Forall_forall _ _) (painted_valid _) o Ho).
  - apply connection_lines_valid.
Qed.

(** X5. Every colour the component ever sets on the context is visible
    and well-formed: over the whole life of the component (frames,
    resizes, cleanup) every fill style has an alpha in [0.042, 0.54]
    and every stroke style an alpha in (0, 0.07], for whatever
    [Math.random] returned. *)
Theorem alphas_are_valid (random : nat -> R) (w h : R) (es : list event) :
  Forall valid_alpha (ctx (run random es (mount random w h))).
Proof.
  assert (Hframes : forall s, Forall valid_alpha (ctx s) ->
                      Forall valid_alpha (ctx (run_frames s))).
  { intros s Hs; unfold run_frames.
    assert (H0 : Forall valid_alpha (ctx (set_frames s []))) by exact Hs.
    revert H0; generalize (set_frames s []); generalize (frames s).
    intros hs; induction hs as [| hd hs IH]; intros s0 H0; cbn; [assumption |].
    apply IH, draw_valid, H0. }
  assert (Hhandle : forall s e, Forall valid_alpha (ctx s) ->
                      Forall valid_alpha (ctx (handle random s e))).
  { intros s e Hs; destruct e as [| w' h' |]; cbn [handle].
    - now apply Hframes.
    - destruct (listening s); [| assumption].
      destruct (resize_spec random w' h' s) as (_ & _ & _ & Hctx & _).
      now rewrite Hctx.
    - unfold cleanup, cancelAnimationFrame. destruct (animId s); exact Hs. }
  assert (H0 : Forall valid_alpha (ctx (mount random w h))).
  { unfold mount. apply (draw_valid (resize random w h unmounted)).
    destruct (resize_spec random w h unmounted) as (_ & _ & _ & Hctx & _).
    rewrite Hctx. constructor. }
  revert H0; generalize (mount random w h).
  induction es as [| e es IH]; intros s Hs; cbn; [assumption |].
  apply IH, Hhandle, Hs.
Qed.

(** ** More on the particle field: the cost of a frame *)

Lemma length_flat_map_const {A B : Type} (f : A -> list B) (n : nat) (l : list A) :
  (forall a, In a l -> length (f a) = n) ->
  length (flat_map f l) = (n * length l)%nat.
Proof.
  induction l as [| a l IH]; intros Hf; cbn [flat_map length]; [lia |].
  rewrite length_app, Hf, IH by (auto using in_eq, in_cons). lia.
Qed.

Lemma length_flat_map_le {A B : Type} (f : A -> list B) (l : list A) :
  (forall a, length (f a) <= 1)%nat ->
  (length (flat_map f l) <= length l)%nat.
Proof.
  intros Hf; induction l as [| a l IH]; cbn [flat_map length]; [lia |].
  rewrite length_app. specialize (Hf a). lia.
Qed.

Lemma connect_at_most_one (ps : list particle) (i j : nat) :
  (length (connect ps i j) <= 1)%nat.
Proof.
  unfold connect.
  destruct (nth_error ps i); [| cbn; lia].
  destruct (nth_error ps j); [| cbn; lia].
  cbv zeta. destruct (Rlt_dec _ 90); cbn; lia.
Qed.

(** Pairs [(i, j)] with [i < j < n] looked at by the loops started at
    the first [m] values of [i]. *)
Lemma pairs_bound (ps : list particle) (m : nat) :
  (m <= length ps)%nat ->
  (2 * length (flat_map
                 (fun i => flat_map (connect ps i)
                             (seq (i + 1) (length ps - (i + 1))))
                 (seq 0 m))
   + (length ps - m) * (length ps - m - 1)
   <= length ps * (length ps - 1))%nat.
Proof.
  induction m as [| m IH]; intros Hm; [cbn [seq flat_map length]; nia |].
  rewrite seq_S, flat_map_app, length_app. cbn [flat_map Nat.add].
  rewrite app_nil_r.
  pose proof (length_flat_map_le (connect ps m)
                (seq (m + 1) (length ps - (m + 1)))
                (connect_at_most_one ps m)) as Hrow.
  rewrite length_seq in Hrow.
  specialize (IH ltac:(lia)).
  set (n := length ps) in *.
  set (a := length (flat_map _ (seq 0 m))) in *.
  set (b := length (flat_map (connect ps m) _)) in *.
  replace (n - m)%nat with (S (n - S m)) in IH by lia.
  nia.
Qed.

(** X6. What a frame costs.  [draw] issues one clearing call, four
    calls per particle and six per connection, and it looks at every
    unordered pair at most once, so a pool of [n] particles never gets
    more than n (n - 1) / 2 connections.  On an empty pool the frame is
    the clearing call alone. *)
Theorem frame_cost (s : state) :
  let n := length (particles s) in
  let k := length (connections (particles (draw s))) in
  length (ctx (draw s)) = (length (ctx s) + 1 + 4 * n + 6 * k)%nat
  /\ (2 * k <= n * (n - 1))%nat
  /\ (particles s = [] ->
        ctx (draw s) =
        ctx s ++ [clearRect 0 0 (width (cv s)) (height (cv s))]).
Proof.
  intros n k.
  assert (Hlen : length (particles (draw s)) = n)
    by (rewrite draw_particles; apply length_map).
  split; [| split].
  - rewrite draw_ctx, forEach_painted, !length_app.
    rewrite (length_flat_map_const _ 4) by (intros; reflexivity).
    unfold connection_lines.
    rewrite (length_flat_map_const _ 6).
    + fold k. fold n. cbn [length]. lia.
    + intros c Hc. apply in_connections in Hc as (p & q & _ & Ep & Eq & _).
      unfold stroke_connection. now rewrite Ep, Eq.
  - pose proof (pairs_bound (particles (draw s)) (length (particles (draw s)))
                  (Nat.le_refl _)) as Hb.
    fold (connections (particles (draw s))) in Hb. fold k in Hb.
    rewrite Hlen in Hb. lia.
  - intros Hps. rewrite draw_ctx, draw_particles, Hps. cbn.
    reflexivity.
Qed.

Lemma flat_map_ext_in {A B : Type} (f g : A -> list B) (l : list A) :
  (forall a, In a l -> f a = g a) -> flat_map f l = flat_map g l.
Proof.
  induction l as [| a l IH]; intros H; [reflexivity |].
  cbn [flat_map]. rewrite (H a (in_eq a l)), IH; [reflexivity |].
  intros b Hb. apply H. now right.
Qed.

Lemma index_pairs_NoDup (ps : list particle) :
  NoDup (map (fun k => (ci k, cj k)) (connections ps)).
Proof.
  apply NoDup_map_NoDup_ForallPairs; [| apply connections_NoDup].
  intros k k' Hk Hk' Heq. injection Heq as Hi Hj.
  apply in_connections in Hk as (p & q & _ & Ep & Eq & _ & Ha).
  apply in_connections in Hk' as (p' & q' & _ & Ep' & Eq' & _ & Ha').
  rewrite Hi, Ep' in Ep. rewrite Hj, Eq' in Eq.
  injection Ep as <-. injection Eq as <-.
  destruct k, k'; cbn in *. congruence.
Qed.

Lemma in_index_pairs (ps : list particle) (i j : nat) :
  In (i, j) (map (fun k => (ci k, cj k)) (connections ps)) <->
  (i < j)%nat
  /\ exists p q,
       nth_error ps i = Some p
       /\ nth_error ps j = Some q
       /\ dist_euc (x p) (y p) (x q) (y q) < 90.
Proof.
  rewrite in_map_iff. split.
  - intros (k & E & Hk). injection E as <- <-.
    apply in_connections in Hk as (p & q & Hlt & Ep & Eq & Hd & _).
    split; [exact Hlt |]. now exists p, q.
  - intros (Hlt & p & q & Ep & Eq & Hd).
    exists (mkConnection i j (0.07 * (1 - distance p q / 90))).
    split; [reflexivity |]. apply in_connections. now exists p, q.
Qed.

Lemma flat_map_of_map {A B C : Type} (g : A -> B) (f : B -> list C) (l : list A) :
  flat_map f (map g l) = flat_map (fun a => f (g a)) l.
Proof.
  induction l as [| a l IH]; [reflexivity |].
  cbn [map flat_map]. now rewrite IH.
Qed.

Lemma connection_lines_by_index (ps : list particle) :
  connection_lines ps =
  flat_map (link_stroke_at ps) (map (fun k => (ci k, cj k)) (connections ps)).
Proof.
  unfold connection_lines. rewrite flat_map_of_map.
  apply flat_map_ext_in; intros k Hk.
  apply in_connections in Hk as (p & q & _ & Ep & Eq & _ & Ha).
  unfold stroke_connection, link_stroke_at, link_stroke, link_alpha; cbn [fst snd].
  rewrite Ep, Eq, Ha. reflexivity.
Qed.

(** X7. No pair of particles is connected twice in a frame.  The
    connection strokes [draw] issues are the specified strokes of a
    list of index pairs in which no pair occurs twice, which holds
    [(i, j)] exactly when [i < j] and the particles at [i] and [j] are
    less than 90 apart, and which therefore never holds a pair in both
    orders. *)
Theorem each_pair_once (s : state) :
  let ps := particles (draw s) in
  exists pairs : list (nat * nat),
    ctx (draw s) =
      ctx s
      ++ [clearRect 0 0 (width (cv s)) (height (cv s))]
      ++ snd (forEach (cv s) (particles s))
      ++ flat_map (link_stroke_at ps) pairs
    /\ NoDup pairs
    /\ (forall i j,
          In (i, j) pairs <->
          (i < j)%nat
          /\ exists p q,
               nth_error ps i = Some p
               /\ nth_error ps j = Some q
               /\ dist_euc (x p) (y p) (x q) (y q) < 90)
    /\ (forall i j, In (i, j) pairs -> ~ In (j, i) pairs).
Proof.
  intros ps. exists (map (fun k => (ci k, cj k)) (connections ps)).
  split; [| split; [| split]].
  - rewrite draw_ctx. fold ps. now rewrite connection_lines_by_index.
  - apply index_pairs_NoDup.
  - apply in_index_pairs.
  - intros i j Hij Hji.
    apply in_index_pairs in Hij as [Hlt _]. apply in_index_pairs in Hji as [Hgt _].
    lia.
Qed.

(** ** The count-up animation *)

Section CountUp.

Variable duration : R.

Hypothesis duration_pos : 0 < duration.

Lemma round_IZR (n : Z) : Counter.round (IZR n) = n.
Proof.
  unfold Counter.round. symmetry; apply Int_part_spec. lra.
Qed.

Lemma round_mono (a b : R) : a <= b -> (Counter.round a <= Counter.round b)%Z.
Proof.
  intros Hab; unfold Counter.round.
  destruct (base_Int_part (a + 0.5)) as [Ha _].
  destruct (base_Int_part (b + 0.5)) as [_ Hb].
  apply Z.lt_succ_r, lt_IZR. rewrite succ_IZR. lra.
Qed.

Lemma progress_range (s u : R) :
  s <= u -> 0 <= Rmin ((u - s) / duration) 1 <= 1.
Proof.
  intros Hsu. split; [| apply Rmin_r].
  apply Rmin_glb; [| lra].
  apply Rmult_le_pos; [lra |].
  apply Rlt_le, Rinv_0_lt_compat, duration_pos.
Qed.

Lemma progress_mono (s u t : R) :
  u <= t -> Rmin ((u - s) / duration) 1 <= Rmin ((t - s) / duration) 1.
Proof.
  intros Hut.
  assert (Hinv : 0 < / duration) by (apply Rinv_0_lt_compat, duration_pos).
  assert (Hq : (u - s) / duration <= (t - s) / duration)
    by (unfold Rdiv; apply Rmult_le_compat_r; lra).
  apply Rmin_glb; [| apply Rmin_r].
  pose proof (Rmin_l ((u - s) / duration) 1). lra.
Qed.

Lemma progress_done (s u : R) :
  s + duration <= u <-> ~ Rmin ((u - s) / duration) 1 < 1.
Proof.
  assert (Hd : (u - s) / duration * duration = u - s) by (field; lra).
  split.
  - intros Hu. rewrite Rmin_right; [lra |].
    apply Rmult_le_reg_r with (r := duration); [exact duration_pos | lra].
  - intros Hn. destruct (Rle_lt_dec 1 ((u - s) / duration)) as [H1 | H1].
    + apply Rmult_le_compat_r with (r := duration) in H1; lra.
    + exfalso; apply Hn. rewrite Rmin_left; lra.
Qed.

Lemma ease_range (p : R) : 0 <= p <= 1 -> 0 <= 1 - (1 - p) ^ 3 <= 1.
Proof.
  intros [H0 H1]. set (q := 1 - p). assert (Hq : 0 <= q <= 1) by (unfold q; lra).
  assert (Hqq : 0 <= q * q <= 1) by nra.
  simpl. nra.
Qed.

Lemma ease_mono (p p' : R) :
  p <= p' -> p' <= 1 -> 1 - (1 - p) ^ 3 <= 1 - (1 - p') ^ 3.
Proof.
  intros Hpp H1.
  assert (Hpow : (1 - p') ^ 3 <= (1 - p) ^ 3) by (apply pow_incr; lra).
  lra.
Qed.

Lemma shown_range (n : Z) (s u : R) :
  (0 <= n)%Z -> s <= u ->
  (0 <= Counter.shown (IZR n) duration s u <= n)%Z.
Proof.
  intros Hn Hsu. unfold Counter.shown.
  pose proof (ease_range _ (progress_range s u Hsu)) as He.
  apply IZR_le in Hn.
  set (e := 1 - (1 - Rmin ((u - s) / duration) 1) ^ 3) in *.
  split.
  - rewrite <- (round_IZR 0) at 1. apply round_mono. nra.
  - rewrite <- (round_IZR n) at 2. apply round_mono. nra.
Qed.

Lemma shown_mono (n : Z) (s u t : R) :
  (0 <= n)%Z -> u <= t ->
  (Counter.shown (IZR n) duration s u <= Counter.shown (IZR n) duration s t)%Z.
Proof.
  intros Hn Hut. unfold Counter.shown. apply round_mono.
  apply IZR_le in Hn.
  apply Rmult_le_compat_r; [exact Hn |].
  apply ease_mono; [now apply progress_mono | apply Rmin_r].
Qed.

Lemma shown_done (n : Z) (s u : R) :
  s + duration <= u -> Counter.shown (IZR n) duration s u = n.
Proof.
  intros Hu. unfold Counter.shown.
  assert (Hp : Rmin ((u - s) / duration) 1 = 1).
  { apply Rle_antisym; [apply Rmin_r |].
    apply Rnot_lt_le. now apply progress_done. }
  rewrite Hp.
  replace ((1 - (1 - 1) ^ 3) * IZR n) with (IZR n) by (simpl; lra).
  apply round_IZR.
Qed.

(** The callback on a state whose start time is [s], not 0. *)
Lemma step_started (target s ts : R) (st : Counter.state) :
  Counter.startTime st = Some s -> s <> 0 ->
  Counter.step target duration st ts =
  Counter.mkState (Counter.shown target duration s ts) (Some s)
                  (if Rlt_dec (Rmin ((ts - s) / duration) 1) 1 then true else false).
Proof.
  intros Hs Hs0. unfold Counter.step, Counter.shown. rewrite Hs; cbn.
  destruct (Req_dec_T s 0); [contradiction | reflexivity].
Qed.

(** The callback on a state whose start time is still unset. *)
Lemma step_unset (target ts : R) (st : Counter.state) :
  Counter.unset (Counter.startTime st) = true ->
  Counter.step target duration st ts =
  Counter.mkState (Counter.shown target duration ts ts) (Some ts)
                  (if Rlt_dec (Rmin ((ts - ts) / duration) 1) 1 then true else false).
Proof.
  intros Hu. unfold Counter.step, Counter.shown.
  destruct (Counter.startTime st) as [v |]; [rewrite Hu |]; reflexivity.
Qed.

Lemma run_finished (target : R) (tss : list R) (st : Counter.state) :
  Counter.pending st = false -> Counter.run target duration tss st = st.
Proof.
  intros Hp; induction tss as [| t tss IH]; cbn; [reflexivity |].
  unfold Counter.frame at 2. now rewrite Hp.
Qed.

End CountUp.

Lemma last_cons_default {A : Type} (a d : A) (l : list A) :
  last (a :: l) d = last l a.
Proof.
  revert a d; induction l as [| b l IH]; intros a d; [reflexivity |].
  change (last (a :: b :: l) d) with (last (b :: l) d).
  now rewrite !IH.
Qed.

Lemma nondecreasing_last (u t : R) (tss : list R) :
  Counter.nondecreasing u tss -> In t tss -> t <= last tss u.
Proof.
  revert u; induction tss as [| a tss IH]; intros u Hnd Hin; [destruct Hin |].
  destruct Hnd as [Hua Hnd]. rewrite last_cons_default.
  destruct Hin as [<- | Hin]; [| now apply IH].
  clear IH Hua. revert a Hnd.
  induction tss as [| b tss IH]; intros a Hnd; [cbn; lra |].
  destruct Hnd as [Hab Hnd]. rewrite last_cons_default.
  specialize (IH b Hnd). lra.
Qed.

Section CountUpFacts.

Variable duration : R.

Hypothesis duration_pos : 0 < duration.

Variable n : Z.

Lemma frame_in_range (u t : R) (st : Counter.state) :
  (0 <= n)%Z -> Counter.in_range n u st -> u <= t ->
  Counter.in_range n t (Counter.frame (IZR n) duration st t).
Proof.
  intros Hn [Hval Hs] Hut. unfold Counter.frame.
  destruct (Counter.pending st).
  - destruct (Counter.unset (Counter.startTime st)) eqn:Hun.
    + rewrite (step_unset duration (IZR n) t st Hun). split; cbn; [| lra].
      apply shown_range; [assumption | assumption | lra].
    + destruct (Counter.startTime st) as [s |] eqn:Es; [| discriminate].
      cbn in Hun. destruct (Req_dec_T s 0) as [| Hs0]; [discriminate |].
      rewrite (step_started duration (IZR n) s t st Es Hs0). split; cbn; [| lra].
      apply shown_range; [assumption | assumption | lra].
  - split; [assumption |].
    destruct (Counter.startTime st); [lra | exact I].
Qed.

Lemma run_in_range (u : R) (tss : list R) (st : Counter.state) :
  (0 <= n)%Z -> Counter.in_range n u st -> Counter.nondecreasing u tss ->
  Counter.in_range n (last tss u) (Counter.run (IZR n) duration tss st).
Proof.
  intros Hn; revert u st; induction tss as [| t tss IH]; intros u st Hst Hnd;
    [exact Hst |].
  destruct Hnd as [Hut Hnd]. rewrite last_cons_default. cbn [Counter.run fold_left].
  apply IH; [| exact Hnd].
  now apply frame_in_range with (u := u).
Qed.

(** X8. The count-up never leaves the range it counts over: for a
    target that is a non-negative integer and frames whose timestamps
    never go back, the number shown after any number of frames is
    between 0 and the target, so it never overshoots. *)
Theorem counter_within_target (start : bool) (t0 : R) (tss : list R) :
  (0 <= n)%Z -> Counter.nondecreasing t0 tss ->
  (0 <= Counter.val (Counter.run (IZR n) duration (t0 :: tss) (Counter.begin start))
   <= n)%Z.
Proof.
  intros Hn Hnd.
  assert (H0 : Counter.in_range n t0 (Counter.begin start)) by (split; cbn; [lia | exact I]).
  assert (Hnd' : Counter.nondecreasing t0 (t0 :: tss)) by (split; [lra | exact Hnd]).
  exact (proj1 (run_in_range t0 (t0 :: tss) _ Hn H0 Hnd')).
Qed.

Lemma frame_tracking (t0 u t : R) (st : Counter.state) :
  t0 <> 0 -> Counter.tracking duration n t0 u st -> u <= t ->
  Counter.tracking duration n t0 t (Counter.frame (IZR n) duration st t).
Proof.
  intros H0 (Hs & Hval & Hp) Hut. unfold Counter.frame.
  destruct (Counter.pending st) eqn:Ep.
  - rewrite (step_started duration (IZR n) t0 t st Hs H0).
    split; [reflexivity |]. split; [reflexivity |]. cbn.
    pose proof (progress_done duration duration_pos t0 t) as Hd.
    destruct (Rlt_dec (Rmin ((t - t0) / duration) 1) 1) as [Hlt | Hnlt].
    + split; [intros _ | reflexivity].
      apply Rnot_le_lt; intros Hle. apply Hd in Hle. contradiction.
    + split; [discriminate |]. intros Hlt. apply Hd in Hnlt. lra.
  - assert (Hu : t0 + duration <= u).
    { apply Rnot_lt_le; intros Hlt. apply Hp in Hlt. discriminate. }
    split; [exact Hs |]. split.
    + rewrite Hval, !(shown_done duration duration_pos) by lra. reflexivity.
    + rewrite Ep. split; [discriminate | lra].
Qed.

Lemma run_tracking (t0 u : R) (tss : list R) (st : Counter.state) :
  t0 <> 0 -> Counter.tracking duration n t0 u st -> Counter.nondecreasing u tss ->
  Counter.tracking duration n t0 (last tss u) (Counter.run (IZR n) duration tss st).
Proof.
  intros H0; revert u st; induction tss as [| t tss IH]; intros u st Hst Hnd;
    [exact Hst |].
  destruct Hnd as [Hut Hnd]. rewrite last_cons_default. cbn [Counter.run fold_left].
  apply IH; [| exact Hnd].
  now apply frame_tracking with (u := u).
Qed.

Lemma first_frame_tracking (t0 : R) :
  Counter.tracking duration n t0 t0 (Counter.frame (IZR n) duration (Counter.begin true) t0).
Proof.
  unfold Counter.frame, Counter.begin; cbn [Counter.pending].
  rewrite (step_unset duration (IZR n) t0 (Counter.mkState 0 None true))
    by reflexivity.
  split; [reflexivity |]. split; [reflexivity |]. cbn [Counter.pending].
  replace ((t0 - t0) / duration) with 0 by (unfold Rdiv; lra).
  rewrite Rmin_left by lra.
  destruct (Rlt_dec 0 1); [| lra]. split; [lra | reflexivity].
Qed.

(** X9. The count-up ends on the target and then stays put: if the
    first frame has a timestamp other than 0 and some later frame comes
    [duration] or more after it, then at the end the number shown is
    exactly the target, no further frame is requested, and any frames
    the browser may still deliver change nothing. *)
Theorem counter_reaches_target (t0 t : R) (tss more : list R) :
  t0 <> 0 -> Counter.nondecreasing t0 tss ->
  In t tss -> t0 + duration <= t ->
  let st := Counter.run (IZR n) duration (t0 :: tss) (Counter.begin true) in
  Counter.val st = n
  /\ Counter.pending st = false
  /\ Counter.run (IZR n) duration more st = st.
Proof.
  intros H0 Hnd Hin Ht st.
  pose proof (run_tracking t0 t0 tss _ H0 (first_frame_tracking t0) Hnd)
    as (_ & Hval & Hp).
  change (Counter.run (IZR n) duration tss
            (Counter.frame (IZR n) duration (Counter.begin true) t0))
    with st in Hval, Hp.
  pose proof (nondecreasing_last t0 t tss Hnd Hin) as Hlast.
  assert (Hpend : Counter.pending st = false).
  { destruct (Counter.pending st); [| reflexivity].
    assert (last tss t0 < t0 + duration) by (now apply Hp). lra. }
  split; [| split].
  - rewrite Hval. apply (shown_done duration duration_pos). lra.
  - exact Hpend.
  - now apply run_finished.
Qed.

(** X10. The number shown depends on the time elapsed since the first
    frame and not on how many frames were delivered: with a first
    timestamp other than 0, after any frames with timestamps that never
    go back the number shown is round((1 - (1 - p)^3) * target) for
    p = min(elapsed / duration, 1) at the latest frame; and for a
    non-negative target a later frame never shows a smaller number. *)
Theorem counter_follows_elapsed_time (t0 : R) (tss : list R) :
  t0 <> 0 -> Counter.nondecreasing t0 tss ->
  Counter.val (Counter.run (IZR n) duration (t0 :: tss) (Counter.begin true))
  = Counter.shown (IZR n) duration t0 (last tss t0)
  /\ ((0 <= n)%Z ->
      forall t, last tss t0 <= t ->
        (Counter.val (Counter.run (IZR n) duration (t0 :: tss) (Counter.begin true))
         <= Counter.val
              (Counter.run (IZR n) duration (t0 :: tss ++ [t]) (Counter.begin true)))%Z).
Proof.
  intros H0 Hnd.
  pose proof (run_tracking t0 t0 tss _ H0 (first_frame_tracking t0) Hnd) as Htr.
  change (Counter.run (IZR n) duration tss
            (Counter.frame (IZR n) duration (Counter.begin true) t0))
    with (Counter.run (IZR n) duration (t0 :: tss) (Counter.begin true)) in Htr.
  split; [exact (proj1 (proj2 Htr)) |].
  intros Hn t Ht.
  change (Counter.run (IZR n) duration (t0 :: tss ++ [t]) (Counter.begin true))
    with (Counter.run (IZR n) duration (tss ++ [t])
            (Counter.frame (IZR n) duration (Counter.begin true) t0)).
  unfold Counter.run at 2. rewrite fold_left_app. cbn [fold_left].
  fold (Counter.run (IZR n) duration tss
          (Counter.frame (IZR n) duration (Counter.begin true) t0)).
  change (Counter.run (IZR n) duration tss
            (Counter.frame (IZR n) duration (Counter.begin true) t0))
    with (Counter.run (IZR n) duration (t0 :: tss) (Counter.begin true)) in *.
  pose proof (frame_tracking t0 _ t _ H0 Htr Ht) as (_ & Hval' & _).
  rewrite Hval', (proj1 (proj2 Htr)).
  now apply shown_mono.
Qed.

End CountUpFacts.

(** X11. A first frame with timestamp 0 does not start the clock: the
    start time it stores is falsy, so the next frame takes its own
    timestamp as the start, and the animation runs as if the frame at 0
    had not been delivered. *)
Theorem counter_zero_timestamp (target duration t1 : R) (tss : list R) :
  Counter.run target duration (0 :: t1 :: tss) (Counter.begin true)
  = Counter.run target duration (t1 :: tss) (Counter.begin true).
Proof.
  cbn [Counter.run fold_left]. f_equal.
  assert (Hzero : Counter.unset (Some 0) = true).
  { cbn. destruct (Req_dec_T 0 0); [reflexivity | contradiction]. }
  assert (Hfirst : Counter.frame target duration (Counter.begin true) 0
                   = Counter.mkState (Counter.shown target duration 0 0)
                                     (Some 0) true).
  { unfold Counter.frame, Counter.begin; cbn [Counter.pending].
    rewrite (step_unset duration target 0 (Counter.mkState 0 None true) eq_refl).
    replace ((0 - 0) / duration) with 0 by (unfold Rdiv; lra).
    rewrite Rmin_left by lra.
    destruct (Rlt_dec 0 1); [reflexivity | lra]. }
  rewrite Hfirst. unfold Counter.frame, Counter.begin; cbn [Counter.pending].
  rewrite (step_unset duration target t1 (Counter.mkState 0 None true) eq_refl).
  now rewrite (step_unset duration target t1
                 (Counter.mkState (Counter.shown target duration 0 0) (Some 0) true)
                 Hzero).
Qed.

(** ** The chat threads *)

Lemma extends_refl (t : Chat.thread) : Chat.extends t t.
Proof.
  repeat split. exists []. split; [now rewrite app_nil_r | constructor].
Qed.

Lemma extends_trans (a b c : Chat.thread) :
  Chat.extends a b -> Chat.extends b c -> Chat.extends a c.
Proof.
  intros (Hi & Ht & Hp & He & l1 & Hm1 & Hf1) (Hi' & Ht' & Hp' & He' & l2 & Hm2 & Hf2).
  repeat split; try congruence.
  exists (l1 ++ l2). split.
  - now rewrite Hm2, Hm1, app_assoc.
  - apply Forall_app; now split.
Qed.

Lemma all_extend_refl (ts : list Chat.thread) : Forall2 Chat.extends ts ts.
Proof.
  induction ts; constructor; [apply extends_refl | assumption].
Qed.

Lemma all_extend_trans (a b c : list Chat.thread) :
  Forall2 Chat.extends a b -> Forall2 Chat.extends b c -> Forall2 Chat.extends a c.
Proof.
  intros Hab; revert c; induction Hab as [| x y a b Hxy _ IH]; intros c Hbc.
  - inversion Hbc; constructor.
  - inversion Hbc as [| y' z b' c' Hyz Hbc']; subst.
    constructor; [now apply extends_trans with (b := y) | now apply IH].
Qed.

Lemma add_message_extends (t : Chat.thread) (m : Chat.message) :
  Chat.mine m = true -> Chat.extends t (Chat.add_message t m).
Proof.
  intros Hm. repeat split. exists [m]. split; [reflexivity |].
  now constructor.
Qed.

Lemma truthy_nonempty (v : String.string) :
  Chat.truthy (Some v) = true <-> v <> String.EmptyString.
Proof.
  unfold Chat.truthy. rewrite negb_true_iff. apply String.eqb_neq.
Qed.

Section ChatFacts.

Variable toFixed2 : String.string -> String.string.

Lemma sendMsg_extends (now : Z) (clock : String.string)
      (txt off : option String.string) (s : Chat.state) :
  Forall2 Chat.extends (Chat.threads s)
          (Chat.threads (Chat.sendMsg toFixed2 now clock txt off s)).
Proof.
  unfold Chat.sendMsg.
  destruct (negb (Chat.truthy txt) && negb (Chat.truthy off));
    [apply all_extend_refl |].
  cbn [Chat.threads].
  induction (Chat.threads s) as [| t ts IH]; cbn [map]; constructor; [| exact IH].
  destruct (String.eqb (Chat.tid t) (Chat.activeId s)); [| apply extends_refl].
  apply add_message_extends. destruct (Chat.truthy off); reflexivity.
Qed.

Lemma handle_extends (s : Chat.state) (e : Chat.event) :
  Forall2 Chat.extends (Chat.threads s) (Chat.threads (Chat.handle toFixed2 s e)).
Proof.
  destruct e; cbn [Chat.handle Chat.threads]; try apply all_extend_refl.
  - destruct (Chat.truthy (Some (Chat.offerAmt s)));
      [apply sendMsg_extends | apply all_extend_refl].
  - apply sendMsg_extends.
Qed.

(** X12. The chat history is append-only: whatever the user does
    (selecting threads, typing, opening and closing the offer box,
    sending texts and offers, in any order), the threads stay the same
    threads in the same order, every thread keeps all the messages it
    had, in their order, and whatever was added to a thread since is
    marked as the user's own. *)
Theorem history_is_append_only (es : list Chat.event) (s : Chat.state) :
  Forall2 Chat.extends (Chat.threads s) (Chat.threads (Chat.run toFixed2 es s)).
Proof.
  revert s; induction es as [| e es IH]; intros s; cbn; [apply all_extend_refl |].
  apply all_extend_trans with (b := Chat.threads (Chat.handle toFixed2 s e));
    [apply handle_extends | apply IH].
Qed.

Lemma map_untouched (a : String.string) (m : Chat.message) (ts : list Chat.thread) :
  ~ In a (map Chat.tid ts) ->
  map (fun t => if String.eqb (Chat.tid t) a then Chat.add_message t m else t) ts = ts.
Proof.
  induction ts as [| t ts IH]; intros Hn; cbn [map]; [reflexivity |].
  cbn [map] in Hn.
  destruct (String.eqb_spec (Chat.tid t) a) as [E | _].
  - exfalso; apply Hn; now left.
  - rewrite IH; [reflexivity |]. intros Hin; apply Hn; now right.
Qed.

(** X13. Sends that leave no trace.  Sending an empty input, or an
    empty offer amount, changes nothing at all, not even the input
    boxes.  When no thread has the active id, no action changes any
    thread: a text sent then is dropped, although the input box is
    cleared as after a delivered message. *)
Theorem send_without_effect (now : Z) (clock : String.string) (s : Chat.state) :
  (Chat.input s = String.EmptyString ->
     Chat.handle toFixed2 s (Chat.SendInput now clock) = s)
  /\ (Chat.offerAmt s = String.EmptyString ->
        Chat.handle toFixed2 s (Chat.SendOffer now clock) = s)
  /\ (~ In (Chat.activeId s) (map Chat.tid (Chat.threads s)) ->
        (forall e, Chat.threads (Chat.handle toFixed2 s e) = Chat.threads s)
        /\ (Chat.input s <> String.EmptyString ->
              Chat.input (Chat.handle toFixed2 s (Chat.SendInput now clock))
              = String.EmptyString)).
Proof.
  split; [| split].
  - intros Hi; cbn [Chat.handle]. unfold Chat.sendMsg. now rewrite Hi.
  - intros Ho; cbn [Chat.handle]. now rewrite Ho.
  - intros Hn.
    assert (Hsend : forall n c txt off,
              Chat.threads (Chat.sendMsg toFixed2 n c txt off s) = Chat.threads s).
    { intros n c txt off; unfold Chat.sendMsg.
      destruct (negb (Chat.truthy txt) && negb (Chat.truthy off)); [reflexivity |].
      cbn [Chat.threads]. now apply map_untouched. }
    split.
    + intros e; destruct e; cbn [Chat.handle Chat.threads]; try reflexivity.
      * destruct (Chat.truthy (Some (Chat.offerAmt s))); [apply Hsend | reflexivity].
      * apply Hsend.
    + intros Hi. apply truthy_nonempty in Hi.
      cbn [Chat.handle]. unfold Chat.sendMsg. rewrite Hi. reflexivity.
Qed.

Lemma total_one_more (a : String.string) (m : Chat.message) (ts : list Chat.thread) :
  NoDup (map Chat.tid ts) -> In a (map Chat.tid ts) ->
  Chat.total
    (map (fun t => if String.eqb (Chat.tid t) a then Chat.add_message t m else t) ts)
  = S (Chat.total ts).
Proof.
  unfold Chat.total.
  induction ts as [| t ts IH]; intros Hnd Hin; [destruct Hin |].
  cbn [map] in Hnd, Hin. apply NoDup_cons_iff in Hnd as [Hnt Hnd].
  cbn [map].
  destruct (String.eqb_spec (Chat.tid t) a) as [E | NE].
  - rewrite map_untouched by (rewrite <- E; exact Hnt).
    cbn [Chat.add_message Chat.messages]. rewrite length_app.
    cbn [length list_sum fold_right]. lia.
  - destruct Hin as [E | Hin]; [contradiction |].
    pose proof (IH Hnd Hin) as IH'.
    unfold list_sum in *; cbn [fold_right]. lia.
Qed.

(** X14. A delivered text.  When the thread ids are pairwise different,
    the active id is one of them and the input is not empty, sending
    the input adds exactly one message over all threads: it is appended
    to the active thread as the user's own text with the given id and
    time; the active thread stays selected, and the input and offer
    boxes are cleared and the offer box closed. *)
Theorem send_adds_one_message (now : Z) (clock : String.string) (s : Chat.state) :
  NoDup (map Chat.tid (Chat.threads s)) ->
  In (Chat.activeId s) (map Chat.tid (Chat.threads s)) ->
  Chat.input s <> String.EmptyString ->
  let s' := Chat.handle toFixed2 s (Chat.SendInput now clock) in
  let msg := Chat.mkMessage now true (Chat.text (Chat.input s)) clock in
  Chat.total (Chat.threads s') = S (Chat.total (Chat.threads s))
  /\ (forall t, In t (Chat.threads s) -> Chat.tid t = Chat.activeId s ->
        In (Chat.add_message t msg) (Chat.threads s'))
  /\ (forall t, In t (Chat.threads s) -> Chat.tid t <> Chat.activeId s ->
        In t (Chat.threads s'))
  /\ Chat.activeId s' = Chat.activeId s
  /\ Chat.input s' = String.EmptyString
  /\ Chat.offerAmt s' = String.EmptyString
  /\ Chat.showOffer s' = false.
Proof.
  intros Hnd Hin Hi s' msg. apply truthy_nonempty in Hi.
  assert (Hs' : s' = Chat.mkState
            (map (fun t => if String.eqb (Chat.tid t) (Chat.activeId s)
                           then Chat.add_message t msg else t) (Chat.threads s))
            (Chat.activeId s) String.EmptyString false String.EmptyString).
  { unfold s'; cbn [Chat.handle]. unfold Chat.sendMsg. rewrite Hi. reflexivity. }
  rewrite Hs'; cbn [Chat.threads Chat.activeId Chat.input Chat.offerAmt Chat.showOffer].
  split; [now apply total_one_more |].
  split; [| split; [| now repeat split]].
  - intros t Ht E. apply in_map_iff. exists t. split; [| exact Ht].
    rewrite E, String.eqb_refl. reflexivity.
  - intros t Ht NE. apply in_map_iff. exists t. split; [| exact Ht].
    apply String.eqb_neq in NE. now rewrite NE.
Qed.

End ChatFacts.

(** ** Instances of the further properties *)

Lemma positions_stay_on_canvas_witness :
  (forall k, 0 <= sample_draws k < 1)
  /\ 0 <= 400 /\ 0 <= 400
  /\ Forall nonneg_size (session ++ [Unmount])
  /\ on_canvas (run sample_draws (session ++ [Unmount]) (mount sample_draws 400 400)).
Proof.
  assert (Hw : 0 <= 400) by lra.
  assert (Hes : Forall nonneg_size (session ++ [Unmount])).
  { unfold session; cbn [app].
    apply Forall_cons; [exact I |].
    apply Forall_cons; [cbn; lra |].
    apply Forall_cons; [exact I |].
    apply Forall_cons; [exact I | apply Forall_nil]. }
  split; [exact sample_draws_range |].
  split; [exact Hw |]. split; [exact Hw |]. split; [exact Hes |].
  exact (positions_stay_on_canvas sample_draws sample_draws_range 400 400
           (session ++ [Unmount]) Hw Hw Hes).
Defined.

Lemma animation_keeps_running_witness :
  Forall still_mounted session
  /\ clears (ctx (run sample_draws session (mount sample_draws 400 400)))
     = S (frame_count session).
Proof.
  assert (Hes : Forall still_mounted session).
  { unfold session.
    apply Forall_cons; [exact I |].
    apply Forall_cons; [exact I |].
    apply Forall_cons; [exact I | apply Forall_nil]. }
  split; [exact Hes |].
  exact (proj2 (proj2 (animation_keeps_running sample_draws 400 400 session Hes))).
Defined.

Lemma ticks_nondecreasing : Counter.nondecreasing 100 Counter.ticks.
Proof.
  unfold Counter.ticks; cbn. repeat split; lra.
Qed.

Lemma counter_within_target_witness :
  0 < 1600 /\ (0 <= 247)%Z /\ Counter.nondecreasing 100 Counter.ticks
  /\ (0 <= Counter.val
             (Counter.run (IZR 247) 1600 (100%R :: Counter.ticks) (Counter.begin true))
      <= 247)%Z.
Proof.
  assert (Hd : 0 < 1600) by lra.
  assert (Hn : (0 <= 247)%Z) by lia.
  split; [exact Hd |]. split; [exact Hn |]. split; [exact ticks_nondecreasing |].
  exact (counter_within_target 1600 Hd 247 true 100 Counter.ticks Hn
           ticks_nondecreasing).
Defined.

Lemma counter_reaches_target_witness :
  0 < 1600 /\ 100 <> 0 /\ Counter.nondecreasing 100 Counter.ticks
  /\ In 1700 Counter.ticks /\ 100 + 1600 <= 1700
  /\ Counter.val
       (Counter.run (IZR 247) 1600 (100 :: Counter.ticks) (Counter.begin true))
     = 247%Z.
Proof.
  assert (Hd : 0 < 1600) by lra.
  assert (H0 : 100 <> 0) by lra.
  assert (Hin : In 1700 Counter.ticks) by (unfold Counter.ticks; cbn; tauto).
  assert (Ht : 100 + 1600 <= 1700) by lra.
  split; [exact Hd |]. split; [exact H0 |]. split; [exact ticks_nondecreasing |].
  split; [exact Hin |]. split; [exact Ht |].
  exact (proj1 (counter_reaches_target 1600 Hd 247 100 1700 Counter.ticks []
                  H0 ticks_nondecreasing Hin Ht)).
Defined.

Lemma counter_follows_elapsed_time_witness :
  0 < 1600 /\ 100 <> 0 /\ Counter.nondecreasing 100 Counter.ticks
  /\ Counter.val
       (Counter.run (IZR 247) 1600 (100 :: Counter.ticks) (Counter.begin true))
     = Counter.shown (IZR 247) 1600 100 (last Counter.ticks 100).
Proof.
  assert (Hd : 0 < 1600) by lra.
  assert (H0 : 100 <> 0) by lra.
  split; [exact Hd |]. split; [exact H0 |]. split; [exact ticks_nondecreasing |].
  exact (proj1 (counter_follows_elapsed_time 1600 Hd 247 100 Counter.ticks
                  H0 ticks_nondecreasing)).
Defined.

Lemma opened_ids : NoDup (map Chat.tid (Chat.threads Chat.opened)).
Proof.
  cbn. constructor; [| constructor; [intros [] | constructor]].
  intros [H | []]; discriminate H.
Qed.

Lemma send_adds_one_message_witness :
  NoDup (map Chat.tid (Chat.threads Chat.opened))
  /\ In (Chat.activeId Chat.opened) (map Chat.tid (Chat.threads Chat.opened))
  /\ Chat.input Chat.opened <> String.EmptyString
  /\ Chat.total
       (Chat.threads
          (Chat.handle (fun v => v) Chat.opened (Chat.SendInput 1700000000000 Chat.noon)))
     = S (Chat.total (Chat.threads Chat.opened)).
Proof.
  assert (Hin : In (Chat.activeId Chat.opened)
                   (map Chat.tid (Chat.threads Chat.opened)))
    by (left; reflexivity).
  assert (Hi : Chat.input Chat.opened <> String.EmptyString) by discriminate.
  split; [exact opened_ids |]. split; [exact Hin |]. split; [exact Hi |].
  exact (proj1 (send_adds_one_message (fun v => v) 1700000000000 Chat.noon
                  Chat.opened opened_ids Hin Hi)).
Defined.
